(** * achilles-sdk-api: status conditions and object references

    A shallow embedding of the Go package [api] (the condition model of
    [Condition] and [ConditionedStatus], and the reference model of
    [ObjectRef], [TypedObjectRef] and [ClusterObjectRef]) together with the
    properties its specification states about them.

    Conventions of the embedding:
    - a Go [string] is a [string]; [==] on strings is [String.eqb] and [<] is
      [String.ltb] (both compare byte by byte, as Go does);
    - an [int64] is a [Z] (the code only stores and compares generations);
    - a method with a pointer receiver that assigns to the receiver takes the
      receiver's value and returns its value after the call;
    - [ConditionedStatus.Equal] allocates, copies and sorts slices, so it runs
      in a store of backing arrays, and panics are the [None] of its monad;
    - [SetConditions] is embedded twice. [Mem.SetConditions] is the call
      [s.SetConditions(xs...)] on slices in a store of backing arrays: the
      argument is the slice [xs] itself, which may share cells with
      [s.Conditions], and it is read while the receiver is written.
      [ConditionedStatus.SetConditions] is the same pair of loops on the
      values the two slices hold; the call computes it whenever no cell of
      the argument lies in the capacity window of [s.Conditions] (lemma
      [Mem_SetConditions_run]), as in every call with listed arguments
      [s.SetConditions(a, b)], for which Go builds a fresh array;
    - the wall clock read by [metav1.Now()] is an argument [now]. *)

From Stdlib Require Import ZArith String Ascii List Sorted Permutation Lia Bool.
From stdpp Require Import base option list gmap sorting strings.
Import ListNotations.

Local Open Scope string_scope.
Local Open Scope Z_scope.
Local Open Scope list_scope.

(** ** Go's standard library and the Kubernetes types the package imports *)

(** [strings.Join(elems, sep)]: the first element, then every further element
    preceded by the separator; the empty string for no element. *)
Fixpoint strings_Join_rest (rest : list string) (sep : string) : string :=
  match rest with
  | [] => ""
  | s :: rest' => (sep ++ s ++ strings_Join_rest rest' sep)%string
  end.

Definition strings_Join (elems : list string) (sep : string) : string :=
  match elems with
  | [] => ""
  | e :: rest => (e ++ strings_Join_rest rest sep)%string
  end.

(** Go's [insertionSort_func], the routine [sort.Slice] runs on a slice of at
    most twelve elements: for [i] from [1] up, the element at [i] is swapped
    with its left neighbour for as long as it is [less] than that neighbour.
    [sift less data j] is the inner loop started at [j]. *)
Fixpoint sift {A} (less : A -> A -> bool) (data : list A) (j : nat) : list A :=
  match j with
  | O => data
  | S j' =>
      match data !! j, data !! j' with
      | Some x, Some y =>
          if less x y then sift less (<[j' := x]> (<[j := y]> data)) j'
          else data
      | _, _ => data
      end
  end.

Definition insertionSort_func {A} (less : A -> A -> bool) (data : list A) : list A :=
  fold_left (sift less) (seq 1 (length data - 1)) data.

(** Modelled from the spec: the three values of [corev1.ConditionStatus]
    (package [k8s.io/api/core/v1]), the ternary True / False / Unknown. *)
Definition ConditionStatus := string.
Definition ConditionTrue : ConditionStatus := "True".
Definition ConditionFalse : ConditionStatus := "False".
Definition ConditionUnknown : ConditionStatus := "Unknown".

(** [metav1.Time]: an instant, as nanoseconds from the zero instant, which is
    the zero value of the type. *)
Definition Time := Z.
Definition Time_zero : Time := 0.

(** Modelled from the spec: [types.Separator] of
    [k8s.io/apimachinery/pkg/types], the fixed separator of the
    [clusterID/namespace/name] form. *)
Definition Separator : string := "/".

(** [types.NamespacedName], which [client.ObjectKey] is an alias of. *)
Module NamespacedName.
Record t := mk { Namespace : string; Name : string }.

(** Modelled from the spec: the [String] method of the library type, the
    [<namespace>/<name>] coordinate. *)
Definition String (n : t) : string :=
  (Namespace n ++ Separator ++ Name n)%string.
End NamespacedName.

(** [schema.GroupVersionKind]. *)
Module GroupVersionKind.
Record t := mk { Group : string; Version : string; Kind : string }.

(** Modelled from the spec: the [String] method of the library type, the
    [Group/Version, Kind=Kind] form. *)
Definition String (gvk : t) : string :=
  (Group gvk ++ "/" ++ Version gvk ++ ", Kind=" ++ Kind gvk)%string.
End GroupVersionKind.

(** A Go [error]: the nil interface value, or a failure with the text its
    [Error] method returns. *)
Inductive error :=
| error_nil
| error_of (text : string).

(** ** api/common.go: the reference model *)

Module ClusterObjectRef.
Record t := mk { Name : string; Namespace : string; ClusterID : string }.

Definition String (o : t) : string :=
  strings_Join [ClusterID o; Namespace o; Name o] Separator.
End ClusterObjectRef.

Module ObjectRef.
Record t := mk { Name : string; Namespace : string }.

Definition ObjectKey (o : t) : NamespacedName.t :=
  NamespacedName.mk (Namespace o) (Name o).
End ObjectRef.

Module TypedObjectRef.
Record t := mk {
  Group : string;
  Version : string;
  Kind : string;
  Name : string;
  Namespace : string
}.

Definition GroupVersionKind (r : t) : GroupVersionKind.t :=
  GroupVersionKind.mk (Group r) (Version r) (Kind r).

Definition ObjectKey (r : t) : NamespacedName.t :=
  NamespacedName.mk (Namespace r) (Name r).

Definition ObjectKeyNotSet (r : t) : bool :=
  (Name r =? "")%string && (Namespace r =? "")%string.

(** [fmt.Sprintf("%s: %s", gvk, key)]: both arguments are Stringers, so [%s]
    prints what their [String] methods return. *)
Definition String (r : t) : string :=
  (GroupVersionKind.String (GroupVersionKind r) ++ ": "
   ++ NamespacedName.String (ObjectKey r))%string.
End TypedObjectRef.

(** ** The condition model *)

(** The statements of a method body: they read and assign the method's own
    variables (the receiver among them), and return a value. *)
Definition body (S A : Type) := S -> A * S.

(** A call of a method with a value receiver: Go copies the caller's variable
    into the method's receiver, runs the body on that copy, and hands back
    the returned value; the caller's variable is the second component. *)
Definition call_by_value {S A} (m : body S A) (caller : S) : A * S :=
  (fst (m caller), caller).

Definition ConditionType := string.
Definition ConditionReason := string.

Definition TypeReady : ConditionType := "Ready".
Definition TypeSynced : ConditionType := "Synced".
Definition TypeReferencesValid : ConditionType := "ReferencesValid".
Definition ReasonReferencesExist : ConditionReason := "ReferencedObjectsExist".

Definition ReasonAvailable : ConditionReason := "Available".
Definition ReasonUnavailable : ConditionReason := "Unavailable".
Definition ReasonCreating : ConditionReason := "Creating".
Definition ReasonDeleting : ConditionReason := "Deleting".

Definition ReasonReconcileSuccess : ConditionReason := "ReconcileSuccess".
Definition ReasonReconcileError : ConditionReason := "ReconcileError".

Module Condition.
Record t := mk {
  Type_ : ConditionType;
  Status : ConditionStatus;
  ObservedGeneration : Z;
  LastTransitionTime : Time;
  Reason : ConditionReason;
  Message : string
}.

(** The zero value [Condition{}]. *)
Definition zero : t := mk "" "" 0 Time_zero "" "".

Definition Equal (c other : t) : bool :=
  (Type_ c =? Type_ other)%string &&
  (Status c =? Status other)%string &&
  (Reason c =? Reason other)%string &&
  (Message c =? Message other)%string &&
  (ObservedGeneration c =? ObservedGeneration other).

Definition set_Message (c : t) (msg : string) : t :=
  mk (Type_ c) (Status c) (ObservedGeneration c) (LastTransitionTime c)
     (Reason c) msg.

(** [c.Message = msg; return c] *)
Definition WithMessage_body (msg : string) : body t t :=
  fun c => let c := set_Message c msg in (c, c).

Definition WithMessage (c : t) (msg : string) : t :=
  fst (call_by_value (WithMessage_body msg) c).

Definition IsEmpty (c : t) : bool :=
  (Type_ c =? "")%string &&
  (Status c =? "")%string &&
  (Reason c =? "")%string &&
  (Message c =? "")%string.
End Condition.

Module ConditionedStatus.
Record t := mk { Conditions : list Condition.t }.

Definition GetConditions (s : t) : list Condition.t := Conditions s.

(** The loop of [GetCondition]: the first condition of type [ct]. *)
Fixpoint GetCondition_range (cs : list Condition.t) (ct : ConditionType)
  : option Condition.t :=
  match cs with
  | [] => None
  | c :: rest =>
      if (Condition.Type_ c =? ct)%string then Some c
      else GetCondition_range rest ct
  end.

Definition GetCondition (s : t) (ct : ConditionType) : Condition.t :=
  match GetCondition_range (Conditions s) ct with
  | Some c => c
  | None => Condition.mk ct ConditionUnknown 0 Time_zero "" ""
  end.

(** One round of the inner loop of [SetConditions], at index [i]: the state
    is the backing array of [s.Conditions] and the flag [exists]. *)
Definition SetConditions_inner (new : Condition.t)
  (st : list Condition.t * bool) (i : nat) : list Condition.t * bool :=
  match st.1 !! i with
  | None => st
  | Some existing =>
      if negb (Condition.Type_ existing =? Condition.Type_ new)%string then st
      else if Condition.Equal existing new then (st.1, true)
      else (<[i := new]> st.1, true)
  end.

(** The body of the outer loop, for one supplied condition [new]. The range
    expression [s.Conditions] is evaluated once, so the indices are those of
    the slice as it was when the inner loop started. *)
Definition SetConditions_outer (s : t) (new : Condition.t) : t :=
  let st := fold_left (SetConditions_inner new)
                      (seq 0 (length (Conditions s))) (Conditions s, false) in
  if st.2 then mk st.1 else mk (st.1 ++ [new]).

(** The outer loop, on the values of the argument list. A call
    [s.SetConditions(xs...)] on a slice [xs] that shares cells with
    [s.Conditions] reads its argument while it writes the receiver: that is
    [Mem.SetConditions] below. *)
Definition SetConditions (s : t) (c : list Condition.t) : t :=
  fold_left SetConditions_outer c s.

(** *** [Equal], in a store of backing arrays

    A [*ConditionedStatus] is nil ([None]) or the address of a status; the
    store maps that address to the status's [Conditions], and the slices
    [Equal] makes live in the same store. *)
Abbreviation loc := nat.
Abbreviation store := (gmap nat (list Condition.t)).
Definition M (A : Type) := store -> option (A * store).

Definition ret {A} (a : A) : M A := fun h => Some (a, h).
Definition bind {A B} (m : M A) (k : A -> M B) : M B :=
  fun h => match m h with
           | Some (a, h') => k a h'
           | None => None
           end.

Local Notation "'let*' x ':=' m 'in' k" := (bind m (fun x => k))
  (at level 10, x name, m at level 100, k at level 200).
Local Notation "m ';;' k" := (bind m (fun _ => k))
  (at level 100, k at level 200, right associativity).

(** [len(x)] *)
Definition len (x : loc) : M nat :=
  fun h => match h !! x with
           | Some a => Some (length a, h)
           | None => None
           end.

(** [make([]Condition, n)]: a new array of [n] zero values. *)
Definition make (n : nat) : M loc :=
  fun h => let x := fresh (dom h) in
           Some (x, <[x := replicate n Condition.zero]> h).

(** [copy(dst, src)]: the first [min(len(dst), len(src))] elements. *)
Definition copy (dst src : loc) : M unit :=
  fun h => match h !! dst, h !! src with
           | Some d, Some s =>
               Some (tt, <[dst := take (length d) s ++ drop (length s) d]> h)
           | _, _ => None
           end.

(** [sort.Slice(x, less)] for a sorting routine [srt]: in place. *)
Definition sort_Slice (srt : list Condition.t -> list Condition.t) (x : loc)
  : M unit :=
  fun h => match h !! x with
           | Some a => Some (tt, <[x := srt a]> h)
           | None => None
           end.

(** [x[i]], which panics out of range. *)
Definition index (x : loc) (i : nat) : M Condition.t :=
  fun h => match h !! x with
           | Some a => match a !! i with
                       | Some c => Some (c, h)
                       | None => None
                       end
           | None => None
           end.

(** The [less] function of both calls of [sort.Slice]. *)
Definition less_Type (a b : Condition.t) : bool :=
  (Condition.Type_ a <? Condition.Type_ b)%string.

(** [for i := range sc { if !sc[i].Equal(oc[i]) { return false } }
     return true] *)
Fixpoint Equal_range (sc oc : loc) (indices : list nat) : M bool :=
  match indices with
  | [] => ret true
  | i :: rest =>
      let* a := index sc i in
      let* b := index oc i in
      if negb (Condition.Equal a b) then ret false
      else Equal_range sc oc rest
  end.

(** [sort_impl less] is the routine behind [sort.Slice]; [s] and [other] are
    the two pointers. *)
Definition Equal (sort_impl : (Condition.t -> Condition.t -> bool) ->
                              list Condition.t -> list Condition.t)
  (s other : option loc) : M bool :=
  match s, other with
  | Some s, Some other =>
      let* n_other := len other in
      let* n_s := len s in
      if negb (n_other =? n_s)%nat then ret false
      else
        let* sc := make n_s in
        copy sc s;;
        let* oc := make n_other in
        copy oc other;;
        sort_Slice (sort_impl less_Type) sc;;
        sort_Slice (sort_impl less_Type) oc;;
        let* n := len sc in
        Equal_range sc oc (seq 0 n)
  | None, None => ret true
  | _, _ => ret false
  end.
End ConditionedStatus.

Definition NewConditionedStatus (c : list Condition.t) : ConditionedStatus.t :=
  let s := ConditionedStatus.mk [] in
  ConditionedStatus.SetConditions s c.

(** ** The condition constructors; [now] is what [metav1.Now()] returns *)

Definition Creating (now : Time) : Condition.t :=
  Condition.mk TypeReady ConditionFalse 0 now ReasonCreating "".

Definition Deleting (now : Time) : Condition.t :=
  Condition.mk TypeReady ConditionFalse 0 now ReasonDeleting "".

Definition Available (now : Time) : Condition.t :=
  Condition.mk TypeReady ConditionTrue 0 now ReasonAvailable "".

Definition Unavailable (now : Time) : Condition.t :=
  Condition.mk TypeReady ConditionFalse 0 now ReasonUnavailable "".

Definition ReconcileSuccess (now : Time) : Condition.t :=
  Condition.mk TypeSynced ConditionTrue 0 now ReasonReconcileSuccess "".

(** [err.Error()] on the nil interface value panics. *)
Definition ReconcileError (now : Time) (err : error) : option Condition.t :=
  match err with
  | error_nil => None
  | error_of text =>
      Some (Condition.mk TypeSynced ConditionFalse 0 now ReasonReconcileError text)
  end.

Definition ReferencesValid (now : Time) : Condition.t :=
  Condition.mk TypeReferencesValid ConditionTrue 0 now ReasonReferencesExist
    "All object references are valid.".

(** The loop of [ReferencesInvalid], one [append] per reference. *)
Definition ReferencesInvalid_range (missingRefs : list ObjectRef.t) : list string :=
  fold_left
    (fun missingRefStrings ref =>
       missingRefStrings ++ [NamespacedName.String (ObjectRef.ObjectKey ref)])
    missingRefs [].

Definition ReferencesInvalid (now : Time) (reason : ConditionReason)
  (missingRefs : list ObjectRef.t) : Condition.t :=
  let missingRefStrings := ReferencesInvalid_range missingRefs in
  Condition.mk TypeReferencesValid ConditionFalse 0 now reason
    ("Referenced objects are not found: "
     ++ strings_Join missingRefStrings ", ")%string.

(** ** Notions the statements use *)

(** A condition with its [LastTransitionTime] set to the zero instant: two
    conditions are [Condition.Equal] exactly when these coincide. *)
Definition timeless (c : Condition.t) : Condition.t :=
  Condition.mk (Condition.Type_ c) (Condition.Status c)
    (Condition.ObservedGeneration c) Time_zero
    (Condition.Reason c) (Condition.Message c).

(** The invariant of a status: at most one condition of each type. *)
Definition unique_types (cs : list Condition.t) : Prop :=
  NoDup (map Condition.Type_ cs).

(** The same multiset of conditions, transition times ignored. *)
Definition same_multiset (a b : list Condition.t) : Prop :=
  Permutation (map timeless a) (map timeless b).

(** The same list, position by position, up to transition times. *)
Definition same_but_times (a a' : list Condition.t) : Prop :=
  Forall2 (fun x y => Condition.Equal x y = true) a a'.

(** What one pass of [SetConditions] for [new] makes of a held entry [e]. *)
Definition merge (new e : Condition.t) : Condition.t :=
  if (Condition.Type_ e =? Condition.Type_ new)%string
     && negb (Condition.Equal e new)
  then new else e.

(** What a whole argument list makes of a held entry. *)
Definition merge_all (c : list Condition.t) (e : Condition.t) : Condition.t :=
  fold_left (fun e new => merge new e) c e.

Definition has_type (ct : ConditionType) (cs : list Condition.t) : bool :=
  existsb (fun e => (Condition.Type_ e =? ct)%string) cs.

(** The order that [less_Type] sorts by: [b] is not less than [a]. *)
Definition le_Type (a b : Condition.t) : Prop :=
  ConditionedStatus.less_Type b a = false.

(** Two lists of one length whose entries are [Condition.Equal] position by
    position: what the last loop of [ConditionedStatus.Equal] decides. *)
Fixpoint pairwise_Equal (a b : list Condition.t) : bool :=
  match a, b with
  | [], [] => true
  | x :: a', y :: b' => Condition.Equal x y && pairwise_Equal a' b'
  | _, _ => false
  end.

(** The boolean a call of [ConditionedStatus.Equal] returns, if it returns. *)
Definition Equal_result (sort_impl : (Condition.t -> Condition.t -> bool) ->
                                     list Condition.t -> list Condition.t)
  (s other : option ConditionedStatus.loc) (h : ConditionedStatus.store)
  : option bool :=
  option_map fst (ConditionedStatus.Equal sort_impl s other h).

(** ** [SetConditions] in memory

    A call [s.SetConditions(xs...)] hands the slice [xs] itself to the
    method, which reads [c[k]] only when its loop reaches [k]; the writes
    [s.Conditions[i] = new] and [append] go to the array of [s.Conditions],
    which [xs] may share. So here a slice is a window on a backing array of
    the store, the method reads and writes cells, and [append] writes in
    place while the capacity lasts. [ConditionedStatus.SetConditions] above
    is what this call computes when its writes cannot reach the cells of
    the argument (lemma [Mem_SetConditions_run]). *)
Module Mem.
Import ConditionedStatus.

(** A slice: the backing array, the index of its first element in that
    array, its length and its capacity. *)
Record slice := Slice { base : loc; off : nat; len : nat; cap : nat }.

(** The nil slice, the [Conditions] of [&ConditionedStatus{}]. *)
Definition nil : slice := Slice 0 0 0 0.

(** The array at [b] (none for the array of a nil slice). *)
Definition array (h : store) (b : loc) : list Condition.t :=
  default [] (h !! b).

(** The elements of a slice. *)
Definition view (h : store) (x : slice) : list Condition.t :=
  take (len x) (drop (off x) (array h (base x))).

(** A slice of the store: its capacity lies within its array. *)
Definition valid (h : store) (x : slice) : Prop :=
  (len x <= cap x)%nat /\ (off x + cap x <= length (array h (base x)))%nat.

(** The writes of a call on the receiver's slice [s] stay within its
    capacity or go to new arrays: they cannot reach the elements of [c]
    when [c] is in another array, or ends before [s] starts, or starts
    where the capacity of [s] ends. *)
Definition apart (c s : slice) : Prop :=
  base c <> base s \/
  (off c + len c <= off s)%nat \/
  (off s + cap s <= off c)%nat.

Local Notation "'let*' x ':=' m 'in' k" := (bind m (fun x => k))
  (at level 10, x name, m at level 100, k at level 200).
Local Notation "m ';;' k" := (bind m (fun _ => k))
  (at level 100, k at level 200, right associativity).

Definition panic {A} : M A := fun _ => None.

(** The cell [j] of the array at [b] takes the value [v]. *)
Definition store_at (b : loc) (j : nat) (v : Condition.t) : M unit :=
  fun h => match h !! b with
           | Some a =>
               if (j <? length a)%nat then Some (tt, <[b := <[j := v]> a]> h)
               else None
           | None => None
           end.

(** [x[i]], read. *)
Definition get (x : slice) (i : nat) : M Condition.t :=
  if (i <? len x)%nat then index (base x) (off x + i) else panic.

(** [x[i] = v] *)
Definition set (x : slice) (i : nat) (v : Condition.t) : M unit :=
  if (i <? len x)%nat then store_at (base x) (off x + i) v else panic.

(** [append(x, v)]: in place while [len(x) < cap(x)]; otherwise a new array
    with the elements of [x], then [v], then [spare (len x)] zero values of
    capacity to spare (how many is the runtime's choice). *)
Definition append (spare : nat -> nat) (x : slice) (v : Condition.t) : M slice :=
  if (len x <? cap x)%nat then
    store_at (base x) (off x + len x) v;;
    ret (Slice (base x) (off x) (S (len x)) (cap x))
  else
    fun h => let b := fresh (dom h) in
             Some (Slice b 0 (S (len x)) (S (len x) + spare (len x)),
                   <[b := view h x ++ v :: replicate (spare (len x)) Condition.zero]> h).

(** The inner loop of [SetConditions] over the indices of [s.Conditions],
    the slice [x] as it was when the loop started. *)
Fixpoint SetConditions_inner (x : slice) (new : Condition.t)
  (indices : list nat) (exists_ : bool) : M bool :=
  match indices with
  | [] => ret exists_
  | i :: rest =>
      let* existing := get x i in
      if negb (Condition.Type_ existing =? Condition.Type_ new)%string
      then SetConditions_inner x new rest exists_
      else if Condition.Equal existing new
      then SetConditions_inner x new rest true
      else set x i new;; SetConditions_inner x new rest true
  end.

(** The body of the outer loop; it returns the new [s.Conditions]. *)
Definition SetConditions_outer (spare : nat -> nat) (x : slice)
  (new : Condition.t) : M slice :=
  let* exists_ := SetConditions_inner x new (seq 0 (len x)) false in
  if exists_ then ret x else append spare x new.

(** The outer loop over the indices of the argument [c]: [c[k]] is read
    when the loop reaches [k]. *)
Fixpoint SetConditions_range (spare : nat -> nat) (x c : slice)
  (indices : list nat) : M slice :=
  match indices with
  | [] => ret x
  | k :: rest =>
      let* new := get c k in
      let* x' := SetConditions_outer spare x new in
      SetConditions_range spare x' c rest
  end.

(** [s.SetConditions(c...)] for the receiver's [s.Conditions = x]; it
    returns the [s.Conditions] the call leaves. *)
Definition SetConditions (spare : nat -> nat) (x c : slice) : M slice :=
  SetConditions_range spare x c (seq 0 (len c)).

(** [NewConditionedStatus(c...)]; it returns the [Conditions] of the new
    status. *)
Definition NewConditionedStatus (spare : nat -> nat) (c : slice) : M slice :=
  SetConditions spare nil c.
End Mem.

(** The [Conditions] that a call [s.SetConditions(c...)] leaves, if it
    returns. *)
Definition SetConditions_result (spare : nat -> nat) (s c : Mem.slice)
  (h : ConditionedStatus.store) : option (list Condition.t) :=
  option_map (fun r => Mem.view r.2 r.1) (Mem.SetConditions spare s c h).

(** ** Further notions *)

(** [c] with [t] as its [LastTransitionTime]. *)
Definition with_time (c : Condition.t) (t : Time) : Condition.t :=
  Condition.mk (Condition.Type_ c) (Condition.Status c)
    (Condition.ObservedGeneration c) t
    (Condition.Reason c) (Condition.Message c).

(** Whether the byte [ch] occurs in [s]. *)
Fixpoint string_has (ch : ascii) (s : string) : bool :=
  match s with
  | EmptyString => false
  | String a s' => Ascii.eqb a ch || string_has ch s'
  end.

(** The four constructors of a Ready condition, as functions of the instant
    they are called at. *)
Definition Ready_constructors : list (Time -> Condition.t) :=
  [Creating; Deleting; Available; Unavailable].

(** All eight constructors, for a failure with the text [text], a reason and
    a list of references, as functions of the instant they are called at
    ([ReconcileError] returns for such a failure, so the default is never
    taken). *)
Definition constructors_at (text : string) (reason : ConditionReason)
  (missingRefs : list ObjectRef.t) : list (Time -> Condition.t) :=
  Ready_constructors ++
  [ReconcileSuccess;
   (fun now => default Condition.zero (ReconcileError now (error_of text)));
   ReferencesValid;
   (fun now => ReferencesInvalid now reason missingRefs)].

(** ** Sample values *)

(** [Creating()], [Available()] and [ReconcileSuccess()] read at the
    instants 1, 2 and 3, and [Available()] read again at the instant 9. *)
Definition sample_creating : Condition.t := Creating 1.
Definition sample_available : Condition.t := Available 2.
Definition sample_synced : Condition.t := ReconcileSuccess 3.
Definition sample_available_later : Condition.t := Available 9.

(** A store with two statuses that hold the same two conditions in opposite
    orders and with different transition times. *)
Definition sample_store : ConditionedStatus.store :=
  {[ 1%nat := [sample_available; sample_synced];
     2%nat := [sample_synced; sample_available_later] ]}.

(** A store with two statuses that hold two conditions of one type, in
    opposite orders. *)
Definition sample_store_repeated : ConditionedStatus.store :=
  {[ 1%nat := [sample_creating; sample_available];
     2%nat := [sample_available; sample_creating] ]}.

(** A store with two arrays that hold the same two conditions, of two
    types, in opposite orders. *)
Definition sample_store_orders : ConditionedStatus.store :=
  {[ 1%nat := [sample_creating; sample_synced];
     2%nat := [sample_synced; sample_creating] ]}.

(** An [append] that allocates no more than it needs. *)
Definition no_spare : nat -> nat := fun _ => 0%nat.

(** * Proofs *)

(** ** Strings and conditions *)

Lemma string_eqb_true (a b : string) : (a =? b)%string = true <-> a = b.
Proof. apply String.eqb_eq. Qed.

Lemma string_eqb_false (a b : string) : (a =? b)%string = false <-> a <> b.
Proof. apply String.eqb_neq. Qed.

Lemma Condition_Equal_fields (c d : Condition.t) :
  Condition.Equal c d = true <->
  Condition.Type_ c = Condition.Type_ d /\
  Condition.Status c = Condition.Status d /\
  Condition.Reason c = Condition.Reason d /\
  Condition.Message c = Condition.Message d /\
  Condition.ObservedGeneration c = Condition.ObservedGeneration d.
Proof.
  unfold Condition.Equal.
  rewrite !andb_true_iff, !string_eqb_true, Z.eqb_eq. tauto.
Qed.

Lemma Condition_Equal_timeless (c d : Condition.t) :
  Condition.Equal c d = true <-> timeless c = timeless d.
Proof.
  rewrite Condition_Equal_fields. destruct c, d; unfold timeless; simpl.
  split.
  - intros (-> & -> & -> & -> & ->). reflexivity.
  - intros H. injection H. auto.
Qed.

Lemma Condition_Equal_refl (c : Condition.t) : Condition.Equal c c = true.
Proof. apply Condition_Equal_timeless. reflexivity. Qed.

Lemma Condition_Equal_sym (c d : Condition.t) :
  Condition.Equal c d = Condition.Equal d c.
Proof.
  apply eq_true_iff_eq. rewrite !Condition_Equal_timeless. split; congruence.
Qed.

Lemma Condition_Equal_trans (c d e : Condition.t) :
  Condition.Equal c d = true -> Condition.Equal d e = true ->
  Condition.Equal c e = true.
Proof. rewrite !Condition_Equal_timeless. congruence. Qed.

Lemma Condition_Equal_Type (c d : Condition.t) :
  Condition.Equal c d = true -> Condition.Type_ c = Condition.Type_ d.
Proof. rewrite Condition_Equal_fields. tauto. Qed.

(** ** [merge]: one entry under one new condition *)

Lemma merge_Type (new e : Condition.t) :
  Condition.Type_ (merge new e) = Condition.Type_ e.
Proof.
  unfold merge.
  destruct (Condition.Type_ e =? Condition.Type_ new)%string eqn:HT; simpl; auto.
  destruct (Condition.Equal e new); simpl; auto.
  symmetry. now apply string_eqb_true.
Qed.

Lemma merge_other_type (new e : Condition.t) :
  Condition.Type_ e <> Condition.Type_ new -> merge new e = e.
Proof.
  intros H. unfold merge. apply string_eqb_false in H. now rewrite H.
Qed.

Lemma merge_Equal (new e : Condition.t) :
  Condition.Equal e new = true -> merge new e = e.
Proof.
  intros H. unfold merge. rewrite H. simpl. now rewrite andb_false_r.
Qed.

Lemma merge_replace (new e : Condition.t) :
  Condition.Type_ e = Condition.Type_ new -> Condition.Equal e new = false ->
  merge new e = new.
Proof.
  intros HT HE. unfold merge. apply string_eqb_true in HT. now rewrite HT, HE.
Qed.

Lemma merge_same_type_Equal (new e : Condition.t) :
  Condition.Type_ e = Condition.Type_ new ->
  Condition.Equal (merge new e) new = true.
Proof.
  intros HT. destruct (Condition.Equal e new) eqn:HE.
  - now rewrite merge_Equal.
  - rewrite merge_replace by assumption. apply Condition_Equal_refl.
Qed.

Lemma has_type_true (ct : ConditionType) (cs : list Condition.t) :
  has_type ct cs = true <-> exists e, In e cs /\ Condition.Type_ e = ct.
Proof.
  unfold has_type. rewrite existsb_exists.
  split; intros (e & He & HT); exists e; split; auto; now apply string_eqb_true.
Qed.

Lemma has_type_false (ct : ConditionType) (cs : list Condition.t) :
  has_type ct cs = false <-> forall e, In e cs -> Condition.Type_ e <> ct.
Proof.
  rewrite <- not_true_iff_false, has_type_true. split.
  - intros H e He HT. apply H. eauto.
  - intros H (e & He & HT). eapply H; eauto.
Qed.

Lemma has_type_In_map (ct : ConditionType) (cs : list Condition.t) :
  has_type ct cs = true <-> In ct (map Condition.Type_ cs).
Proof.
  rewrite has_type_true, in_map_iff. split; intros (e & H1 & H2); eauto.
Qed.

Lemma map_merge_Type (new : Condition.t) (cs : list Condition.t) :
  map Condition.Type_ (map (merge new) cs) = map Condition.Type_ cs.
Proof.
  rewrite map_map. apply map_ext. intros e. apply merge_Type.
Qed.

Lemma lookup_map {A B} (f : A -> B) (l : list A) (i : nat) :
  map f l !! i = option_map f (l !! i).
Proof.
  revert i. induction l as [|x l IH]; intros [|i]; simpl; auto.
Qed.

(** ** The loops of [SetConditions] *)

Import ConditionedStatus.

(** The inner loop, started at index [length pre] on the array [pre ++ rest],
    leaves [pre] alone and merges [new] into every entry of [rest]. *)
Lemma SetConditions_inner_fold (new : Condition.t) (rest pre : list Condition.t)
  (b : bool) :
  fold_left (SetConditions_inner new) (seq (length pre) (length rest))
            (pre ++ rest, b)
  = (pre ++ map (merge new) rest, b || has_type (Condition.Type_ new) rest).
Proof.
  revert pre b. induction rest as [|e rest IH]; intros pre b.
  - simpl. now rewrite orb_false_r.
  - cbn [length seq fold_left].
    assert (Hi : (pre ++ e :: rest) !! length pre = Some e)
      by apply list_lookup_middle, eq_refl.
    assert (Hstep : SetConditions_inner new (pre ++ e :: rest, b) (length pre)
                    = ((pre ++ [merge new e]) ++ rest,
                       b || (Condition.Type_ e =? Condition.Type_ new)%string)).
    { unfold SetConditions_inner. cbn [fst snd]. rewrite Hi.
      rewrite <- app_assoc. cbn [app]. unfold merge.
      destruct (Condition.Type_ e =? Condition.Type_ new)%string; cbn [negb andb].
      - destruct (Condition.Equal e new); cbn [negb].
        + now rewrite orb_true_r.
        + rewrite orb_true_r. f_equal.
          replace (length pre) with (length pre + 0)%nat by lia.
          now rewrite insert_app_r.
      - now rewrite orb_false_r. }
    rewrite Hstep.
    replace (S (length pre)) with (length (pre ++ [merge new e]))
      by (rewrite length_app; simpl; lia).
    rewrite IH. rewrite <- app_assoc. cbn [app map has_type existsb].
    now rewrite orb_assoc.
Qed.

Lemma SetConditions_outer_eq (s : t) (new : Condition.t) :
  Conditions (SetConditions_outer s new)
  = map (merge new) (Conditions s)
    ++ (if has_type (Condition.Type_ new) (Conditions s) then [] else [new]).
Proof.
  unfold SetConditions_outer.
  pose proof (SetConditions_inner_fold new (Conditions s) [] false) as H.
  cbn [length app orb] in H. rewrite H. cbn [fst snd].
  destruct (has_type _ _); cbn [Conditions]; auto using app_nil_r.
Qed.

Lemma map_merge_absent (new : Condition.t) (cs : list Condition.t) :
  has_type (Condition.Type_ new) cs = false -> map (merge new) cs = cs.
Proof.
  intros H. rewrite <- (map_id cs) at 2. apply map_ext_in.
  intros e He. apply merge_other_type. now apply (proj1 (has_type_false _ _) H).
Qed.

Lemma SetConditions_nil (s : t) : SetConditions s [] = s.
Proof. reflexivity. Qed.

Lemma SetConditions_cons (s : t) (new : Condition.t) (c : list Condition.t) :
  SetConditions s (new :: c) = SetConditions (SetConditions_outer s new) c.
Proof. reflexivity. Qed.

Lemma SetConditions_app (s : t) (c1 c2 : list Condition.t) :
  SetConditions s (c1 ++ c2) = SetConditions (SetConditions s c1) c2.
Proof. unfold SetConditions. apply fold_left_app. Qed.

Lemma status_eq (s s' : t) : Conditions s = Conditions s' -> s = s'.
Proof. destruct s, s'; simpl; congruence. Qed.

Lemma SetConditions_outer_lookup (s : t) (new e : Condition.t) (i : nat) :
  Conditions s !! i = Some e ->
  Conditions (SetConditions_outer s new) !! i = Some (merge new e).
Proof.
  intros H. rewrite SetConditions_outer_eq.
  rewrite lookup_app_l.
  - now rewrite lookup_map, H.
  - rewrite length_map. apply lookup_lt_is_Some. eauto.
Qed.

Lemma SetConditions_outer_absent (s : t) (new : Condition.t) :
  has_type (Condition.Type_ new) (Conditions s) = false ->
  Conditions (SetConditions_outer s new) = Conditions s ++ [new].
Proof.
  intros H. rewrite SetConditions_outer_eq, H. now rewrite map_merge_absent.
Qed.

Lemma SetConditions_outer_present (s : t) (new : Condition.t) :
  has_type (Condition.Type_ new) (Conditions s) = true ->
  Conditions (SetConditions_outer s new) = map (merge new) (Conditions s).
Proof.
  intros H. rewrite SetConditions_outer_eq, H. apply app_nil_r.
Qed.

Lemma SetConditions_outer_types (s : t) (new : Condition.t) :
  map Condition.Type_ (Conditions (SetConditions_outer s new))
  = map Condition.Type_ (Conditions s)
    ++ (if has_type (Condition.Type_ new) (Conditions s) then []
        else [Condition.Type_ new]).
Proof.
  rewrite SetConditions_outer_eq, map_app, map_merge_Type.
  now destruct (has_type _ _).
Qed.

Lemma SetConditions_outer_unique (s : t) (new : Condition.t) :
  unique_types (Conditions s) ->
  unique_types (Conditions (SetConditions_outer s new)).
Proof.
  unfold unique_types. intros H. rewrite SetConditions_outer_types.
  destruct (has_type _ _) eqn:Hh.
  - now rewrite app_nil_r.
  - apply NoDup_app. split; [assumption|]. split.
    + intros ct Hct Hin. apply list_elem_of_In in Hct.
      apply list_elem_of_In in Hin. destruct Hin as [<-|[]].
      apply has_type_In_map in Hct. congruence.
    + apply NoDup_cons. split; [apply not_elem_of_nil | apply NoDup_nil_2].
Qed.

Lemma SetConditions_unique (c : list Condition.t) (s : t) :
  unique_types (Conditions s) -> unique_types (Conditions (SetConditions s c)).
Proof.
  revert s. induction c as [|new c IH]; intros s H.
  - assumption.
  - rewrite SetConditions_cons. apply IH. now apply SetConditions_outer_unique.
Qed.

(** ** The invariant of a status *)


(** C2: a status with at most one condition of each type still has at most
    one of each type after any call of [SetConditions], whatever the supplied
    list (repeated types included); and what [NewConditionedStatus] returns
    has at most one condition of each type. *)
Theorem SetConditions_keeps_unique_types :
  (forall (s : t) (c : list Condition.t),
     unique_types (Conditions s) ->
     unique_types (Conditions (SetConditions s c))) /\
  (forall c : list Condition.t,
     unique_types (Conditions (NewConditionedStatus c))).
Proof.
  split.
  - intros s c. apply SetConditions_unique.
  - intros c. unfold NewConditionedStatus. apply SetConditions_unique.
    apply NoDup_nil_2.
Qed.

(** ** [SetConditions]: one condition, and a whole argument list *)

Lemma merge_all_snoc (c : list Condition.t) (x e : Condition.t) :
  merge_all (c ++ [x]) e = merge x (merge_all c e).
Proof. unfold merge_all. now rewrite fold_left_app. Qed.

Lemma merge_all_Type (c : list Condition.t) (e : Condition.t) :
  Condition.Type_ (merge_all c e) = Condition.Type_ e.
Proof.
  revert e. induction c as [|d c IH]; intros e; [reflexivity|].
  cbn [merge_all fold_left]. fold (merge_all c (merge d e)).
  now rewrite IH, merge_Type.
Qed.

Lemma merge_all_absent (c : list Condition.t) (e : Condition.t) :
  (forall d, In d c -> Condition.Type_ d <> Condition.Type_ e) ->
  merge_all c e = e.
Proof.
  revert e. induction c as [|d c IH]; intros e H; [reflexivity|].
  cbn [merge_all fold_left]. fold (merge_all c (merge d e)).
  rewrite merge_other_type.
  - apply IH. intros d' Hd'. apply H. now right.
  - intros HT. eapply H; [now left | now symmetry].
Qed.

Lemma merge_Equal_compat (d e e' : Condition.t) :
  Condition.Equal e e' = true ->
  Condition.Equal (merge d e) (merge d e') = true.
Proof.
  intros HE. pose proof (Condition_Equal_Type _ _ HE) as HT.
  destruct (string_dec (Condition.Type_ e) (Condition.Type_ d)) as [Hd|Hd].
  - apply Condition_Equal_trans with d.
    + now apply merge_same_type_Equal.
    + rewrite Condition_Equal_sym. apply merge_same_type_Equal. congruence.
  - rewrite !merge_other_type; congruence.
Qed.

Lemma merge_all_Equal_compat (c : list Condition.t) (e e' : Condition.t) :
  Condition.Equal e e' = true ->
  Condition.Equal (merge_all c e) (merge_all c e') = true.
Proof.
  revert e e'. induction c as [|d c IH]; intros e e' HE; [assumption|].
  cbn [merge_all fold_left]. apply IH. now apply merge_Equal_compat.
Qed.

(** Two entries of one type either end up [Equal], or the list leaves both
    as they are. *)
Lemma merge_all_converge (c : list Condition.t) (e e' : Condition.t) :
  Condition.Type_ e = Condition.Type_ e' ->
  Condition.Equal (merge_all c e) (merge_all c e') = true \/
  (merge_all c e = e /\ merge_all c e' = e').
Proof.
  revert e e'. induction c as [|d c IH]; intros e e' HT; [now right|].
  cbn [merge_all fold_left].
  destruct (string_dec (Condition.Type_ e) (Condition.Type_ d)) as [Hd|Hd].
  - left. apply merge_all_Equal_compat.
    apply Condition_Equal_trans with d.
    + now apply merge_same_type_Equal.
    + rewrite Condition_Equal_sym. apply merge_same_type_Equal. congruence.
  - rewrite !merge_other_type by congruence. now apply IH.
Qed.

Lemma SetConditions_outer_grows (s : t) (new : Condition.t) (ct : ConditionType) :
  has_type ct (Conditions s) = true ->
  has_type ct (Conditions (SetConditions_outer s new)) = true.
Proof.
  rewrite !has_type_In_map, SetConditions_outer_types. intros H.
  apply in_or_app. now left.
Qed.

Lemma SetConditions_outer_has_new (s : t) (new : Condition.t) :
  has_type (Condition.Type_ new) (Conditions (SetConditions_outer s new)) = true.
Proof.
  destruct (has_type (Condition.Type_ new) (Conditions s)) eqn:H.
  - now apply SetConditions_outer_grows.
  - rewrite has_type_In_map, SetConditions_outer_types, H.
    apply in_or_app. right. now left.
Qed.

Lemma SetConditions_grows (c : list Condition.t) (s : t) (ct : ConditionType) :
  has_type ct (Conditions s) = true ->
  has_type ct (Conditions (SetConditions s c)) = true.
Proof.
  revert s. induction c as [|d c IH]; intros s H; [assumption|].
  rewrite SetConditions_cons. apply IH. now apply SetConditions_outer_grows.
Qed.

Lemma SetConditions_has_types (c : list Condition.t) (s : t) (x : Condition.t) :
  In x c -> has_type (Condition.Type_ x) (Conditions (SetConditions s c)) = true.
Proof.
  revert s. induction c as [|d c IH]; intros s Hx; [destruct Hx|].
  destruct Hx as [->|H].
  - rewrite SetConditions_cons. apply SetConditions_grows.
    apply SetConditions_outer_has_new.
  - rewrite SetConditions_cons. now apply IH.
Qed.

(** When every supplied type is already held, nothing is appended. *)
Lemma SetConditions_all_present (c : list Condition.t) (s : t) :
  (forall x, In x c -> has_type (Condition.Type_ x) (Conditions s) = true) ->
  Conditions (SetConditions s c) = map (merge_all c) (Conditions s).
Proof.
  revert s. induction c as [|d c IH]; intros s H.
  - cbn. now rewrite map_id.
  - rewrite SetConditions_cons, IH.
    + rewrite SetConditions_outer_present by (apply H; now left).
      now rewrite map_map.
    + intros x Hx. apply SetConditions_outer_grows. apply H. now right.
Qed.

(** Every entry of the result is a fixed point of the argument list. *)
Lemma SetConditions_entries_fixed (c : list Condition.t) (s : t) (r : Condition.t) :
  In r (Conditions (SetConditions s c)) -> merge_all c r = r.
Proof.
  revert r. induction c as [|x c IH] using rev_ind; intros r Hr; [reflexivity|].
  rewrite merge_all_snoc.
  rewrite SetConditions_app, SetConditions_cons, SetConditions_nil in Hr.
  rewrite SetConditions_outer_eq in Hr. apply in_app_or in Hr.
  destruct Hr as [Hr|Hr].
  - apply in_map_iff in Hr. destruct Hr as (r0 & <- & Hr0).
    pose proof (IH _ Hr0) as Hfix.
    destruct (string_dec (Condition.Type_ r0) (Condition.Type_ x)) as [HT|HT].
    + destruct (Condition.Equal r0 x) eqn:HE.
      * rewrite (merge_Equal _ _ HE), Hfix. now apply merge_Equal.
      * rewrite (merge_replace _ _ HT HE).
        destruct (merge_all_converge c r0 x HT) as [Hc|[_ Hx]].
        -- rewrite Hfix in Hc. apply merge_replace.
           ++ apply merge_all_Type.
           ++ apply not_true_iff_false. intros Hx.
              rewrite (Condition_Equal_trans _ _ _ Hc Hx) in HE. discriminate.
        -- rewrite Hx. apply merge_Equal, Condition_Equal_refl.
    + rewrite (merge_other_type _ _ HT), Hfix. now apply merge_other_type.
  - destruct (has_type _ _) eqn:Hh; [destruct Hr|].
    destruct Hr as [<-|[]].
    rewrite merge_all_absent.
    + apply merge_Equal, Condition_Equal_refl.
    + intros d Hd HT.
      pose proof (SetConditions_has_types c s d Hd) as Hp.
      rewrite HT in Hp. congruence.
Qed.

Lemma SetConditions_twice (c : list Condition.t) (s : t) :
  SetConditions (SetConditions s c) c = SetConditions s c.
Proof.
  apply status_eq. rewrite SetConditions_all_present.
  - rewrite <- (map_id (Conditions (SetConditions s c))) at 2.
    apply map_ext_in. intros r Hr. now apply SetConditions_entries_fixed with s.
  - intros x Hx. now apply SetConditions_has_types.
Qed.

(** Conditions of other types leave an entry where and as it is. *)
Lemma SetConditions_other_types_lookup (post : list Condition.t) (m : t)
  (e : Condition.t) (i : nat) :
  (forall d, In d post -> Condition.Type_ d <> Condition.Type_ e) ->
  Conditions m !! i = Some e ->
  Conditions (SetConditions m post) !! i = Some e.
Proof.
  revert m. induction post as [|d post IH]; intros m H Hi; [assumption|].
  rewrite SetConditions_cons. apply IH.
  - intros d' Hd'. apply H. now right.
  - rewrite (SetConditions_outer_lookup _ _ _ _ Hi). f_equal.
    apply merge_other_type. intros HT. eapply H; [now left | now symmetry].
Qed.

Lemma SetConditions_other_types_entries (P : Condition.t -> Prop)
  (ct : ConditionType) (post : list Condition.t) (m : t) :
  (forall d, In d post -> Condition.Type_ d <> ct) ->
  (forall e, In e (Conditions m) -> Condition.Type_ e = ct -> P e) ->
  forall e, In e (Conditions (SetConditions m post)) ->
            Condition.Type_ e = ct -> P e.
Proof.
  revert m. induction post as [|d post IH]; intros m H HP; [assumption|].
  rewrite SetConditions_cons. apply IH.
  - intros d' Hd'. apply H. now right.
  - intros e He HT. rewrite SetConditions_outer_eq in He.
    apply in_app_or in He. destruct He as [He|He].
    + apply in_map_iff in He. destruct He as (e0 & <- & He0).
      rewrite merge_Type in HT. rewrite merge_other_type.
      * now apply HP.
      * rewrite HT. intros HT'. eapply H; [now left | now symmetry].
    + destruct (has_type _ _); [destruct He|]. destruct He as [<-|[]].
      exfalso. eapply H; [now left | assumption].
Qed.

Lemma SetConditions_outer_entries_Equal (s : t) (c e : Condition.t) :
  In e (Conditions (SetConditions_outer s c)) ->
  Condition.Type_ e = Condition.Type_ c -> Condition.Equal e c = true.
Proof.
  intros He HT. rewrite SetConditions_outer_eq in He.
  apply in_app_or in He. destruct He as [He|He].
  - apply in_map_iff in He. destruct He as (e0 & <- & He0).
    apply merge_same_type_Equal. now rewrite merge_Type in HT.
  - destruct (has_type _ _); [destruct He|]. destruct He as [<-|[]].
    apply Condition_Equal_refl.
Qed.

(** C1: for a status [s] and a condition [c] passed to [SetConditions]:
    when [s] holds no condition of [c]'s type, [c] is appended to the list;
    an entry of [c]'s type that is not [Equal] to [c] is replaced by [c];
    an entry that is [Equal] to [c] stays exactly as it was, transition time
    included. Entries of other types stay as they were and the list grows
    only in the first case. So a later [c2] that is [Equal] to [c] changes
    nothing, and setting [c] and then [c2] on a status without their type
    leaves [c] there with its own transition time. *)
Theorem SetConditions_append_replace_keep (s : t) (c : Condition.t) :
  ((forall e, In e (Conditions s) -> Condition.Type_ e <> Condition.Type_ c) ->
   Conditions (SetConditions s [c]) = Conditions s ++ [c]) /\
  (forall i e, Conditions s !! i = Some e ->
     Condition.Type_ e = Condition.Type_ c -> Condition.Equal e c = false ->
     Conditions (SetConditions s [c]) !! i = Some c) /\
  (forall i e, Conditions s !! i = Some e -> Condition.Equal e c = true ->
     Conditions (SetConditions s [c]) !! i = Some e) /\
  (forall i e, Conditions s !! i = Some e ->
     Condition.Type_ e <> Condition.Type_ c ->
     Conditions (SetConditions s [c]) !! i = Some e) /\
  ((exists e, In e (Conditions s) /\ Condition.Type_ e = Condition.Type_ c) ->
   length (Conditions (SetConditions s [c])) = length (Conditions s)) /\
  (forall c2, Condition.Equal c c2 = true ->
     SetConditions (SetConditions s [c]) [c2] = SetConditions s [c]) /\
  (forall c2, Condition.Equal c c2 = true ->
     (forall e, In e (Conditions s) -> Condition.Type_ e <> Condition.Type_ c) ->
     Conditions (SetConditions (SetConditions s [c]) [c2]) = Conditions s ++ [c]).
Proof.
  assert (Hnoop : forall c2, Condition.Equal c c2 = true ->
            SetConditions (SetConditions s [c]) [c2] = SetConditions s [c]).
  { intros c2 HE. apply status_eq.
    rewrite !SetConditions_cons, !SetConditions_nil.
    pose proof (Condition_Equal_Type _ _ HE) as HT.
    rewrite SetConditions_outer_present.
    - rewrite <- (map_id (Conditions (SetConditions_outer s c))) at 2.
      apply map_ext_in. intros e He.
      destruct (string_dec (Condition.Type_ e) (Condition.Type_ c)) as [Hc|Hc].
      + apply merge_Equal. apply Condition_Equal_trans with c; [|exact HE].
        now apply SetConditions_outer_entries_Equal with s.
      + apply merge_other_type. congruence.
    - rewrite <- HT. apply SetConditions_outer_has_new. }
  split; [|split; [|split; [|split; [|split; [|split]]]]].
  - intros H. rewrite SetConditions_cons, SetConditions_nil.
    apply SetConditions_outer_absent. now apply has_type_false.
  - intros i e Hi HT HE. rewrite SetConditions_cons, SetConditions_nil.
    rewrite (SetConditions_outer_lookup _ _ _ _ Hi). f_equal.
    now apply merge_replace.
  - intros i e Hi HE. rewrite SetConditions_cons, SetConditions_nil.
    rewrite (SetConditions_outer_lookup _ _ _ _ Hi). f_equal.
    now apply merge_Equal.
  - intros i e Hi HT. rewrite SetConditions_cons, SetConditions_nil.
    rewrite (SetConditions_outer_lookup _ _ _ _ Hi). f_equal.
    now apply merge_other_type.
  - intros H. apply has_type_true in H.
    rewrite SetConditions_cons, SetConditions_nil.
    rewrite SetConditions_outer_present by assumption. apply length_map.
  - exact Hnoop.
  - intros c2 HE Habs. rewrite (Hnoop c2 HE).
    rewrite SetConditions_cons, SetConditions_nil.
    apply SetConditions_outer_absent. now apply has_type_false.
Qed.

(** On the values of an argument list: the conditions are applied from left
    to right; for the last condition [c] of its type in the list, every
    entry of that type in the result is [Equal] to [c], and it is [c] itself
    unless the entry that the earlier conditions left in place was already
    [Equal] to [c], which then stays with its own transition time; and the
    same list applied twice gives the status that one application gives. *)
Lemma values_in_order_last_wins (s : t) :
  (forall c1 c2 : list Condition.t,
     SetConditions s (c1 ++ c2) = SetConditions (SetConditions s c1) c2) /\
  (forall (pre : list Condition.t) (c : Condition.t) (post : list Condition.t),
     (forall d, In d post -> Condition.Type_ d <> Condition.Type_ c) ->
     (forall e, In e (Conditions (SetConditions s (pre ++ c :: post))) ->
        Condition.Type_ e = Condition.Type_ c -> Condition.Equal e c = true) /\
     (forall i e, Conditions (SetConditions s pre) !! i = Some e ->
        Condition.Type_ e = Condition.Type_ c ->
        Conditions (SetConditions s (pre ++ c :: post)) !! i
        = Some (if Condition.Equal e c then e else c)) /\
     ((forall e, In e (Conditions (SetConditions s pre)) ->
         Condition.Type_ e <> Condition.Type_ c) ->
      Conditions (SetConditions s (pre ++ c :: post))
        !! length (Conditions (SetConditions s pre)) = Some c)) /\
  (forall c : list Condition.t,
     SetConditions (SetConditions s c) c = SetConditions s c).
Proof.
  split; [|split].
  - intros c1 c2. apply SetConditions_app.
  - intros pre c post Hpost.
    rewrite SetConditions_app, SetConditions_cons.
    set (mid := SetConditions s pre). split; [|split].
    + apply SetConditions_other_types_entries; [assumption|].
      apply SetConditions_outer_entries_Equal.
    + intros i e Hi HT.
      destruct (Condition.Equal e c) eqn:HE.
      * apply SetConditions_other_types_lookup; [now rewrite HT|].
        rewrite (SetConditions_outer_lookup _ _ _ _ Hi).
        now rewrite merge_Equal.
      * apply SetConditions_other_types_lookup; [assumption|].
        rewrite (SetConditions_outer_lookup _ _ _ _ Hi).
        now rewrite merge_replace.
    + intros Habs.
      apply SetConditions_other_types_lookup; [assumption|].
      rewrite SetConditions_outer_absent by now apply has_type_false.
      now apply list_lookup_middle.
  - intros c. apply SetConditions_twice.
Qed.

(** ** Reading a condition *)

Lemma GetCondition_range_absent (cs : list Condition.t) (ct : ConditionType) :
  (forall c, In c cs -> Condition.Type_ c <> ct) ->
  GetCondition_range cs ct = None.
Proof.
  induction cs as [|c cs IH]; intros H; [reflexivity|].
  cbn [GetCondition_range].
  assert (Hc : (Condition.Type_ c =? ct)%string = false)
    by (apply string_eqb_false, H; now left).
  rewrite Hc. apply IH. intros d Hd. apply H. now right.
Qed.

Lemma GetCondition_range_first (pre post : list Condition.t) (c : Condition.t) :
  (forall d, In d pre -> Condition.Type_ d <> Condition.Type_ c) ->
  GetCondition_range (pre ++ c :: post) (Condition.Type_ c) = Some c.
Proof.
  induction pre as [|d pre IH]; intros H; cbn [app GetCondition_range].
  - now rewrite String.eqb_refl.
  - assert (Hd : (Condition.Type_ d =? Condition.Type_ c)%string = false)
      by (apply string_eqb_false, H; now left).
    rewrite Hd. apply IH. intros d' Hd'. apply H. now right.
Qed.

Lemma unique_types_split (pre post : list Condition.t) (c d : Condition.t) :
  unique_types (pre ++ c :: post) -> In d pre ->
  Condition.Type_ d <> Condition.Type_ c.
Proof.
  unfold unique_types. rewrite map_app. cbn [map]. intros H Hd HT.
  apply NoDup_app in H. destruct H as (_ & Hdisj & _).
  apply (Hdisj (Condition.Type_ d)).
  - apply list_elem_of_In, in_map, Hd.
  - rewrite HT. apply list_elem_of_here.
Qed.

(** C3: for a type [ct] that a status does not hold, [GetCondition] returns
    the condition of type [ct] and status Unknown whose other fields are all
    empty, and [IsEmpty] is false of it, while it is true of the zero value
    [Condition{}]; for a type the status holds, [GetCondition] returns the
    stored condition (the first of that type, which is the only one in a
    status with at most one condition of each type). *)
Theorem GetCondition_absent_or_stored :
  (forall (s : t) (ct : ConditionType),
     (forall c, In c (Conditions s) -> Condition.Type_ c <> ct) ->
     GetCondition s ct = Condition.mk ct "Unknown" 0 Time_zero "" "" /\
     Condition.IsEmpty (GetCondition s ct) = false) /\
  Condition.IsEmpty (Condition.mk "" "" 0 Time_zero "" "") = true /\
  (forall (s : t) (pre post : list Condition.t) (c : Condition.t),
     Conditions s = pre ++ c :: post ->
     (forall d, In d pre -> Condition.Type_ d <> Condition.Type_ c) ->
     GetCondition s (Condition.Type_ c) = c) /\
  (forall (s : t) (c : Condition.t),
     unique_types (Conditions s) -> In c (Conditions s) ->
     GetCondition s (Condition.Type_ c) = c).
Proof.
  split; [|split; [reflexivity|split]].
  - intros s ct H. unfold GetCondition.
    rewrite (GetCondition_range_absent _ _ H). split; [reflexivity|].
    unfold Condition.IsEmpty. cbn. now rewrite andb_false_r.
  - intros s pre post c Hs H. unfold GetCondition.
    now rewrite Hs, GetCondition_range_first.
  - intros s c Hu Hc. apply in_split in Hc. destruct Hc as (pre & post & Hs).
    unfold GetCondition. rewrite Hs, GetCondition_range_first; [reflexivity|].
    intros d Hd. rewrite Hs in Hu. eapply unique_types_split; eauto.
Qed.

(** ** The condition constructors *)

Lemma fold_left_append_one {A B} (f : A -> B) (l : list A) (acc : list B) :
  fold_left (fun acc x => acc ++ [f x]) l acc = acc ++ map f l.
Proof.
  revert acc. induction l as [|x l IH]; intros acc; cbn [fold_left map].
  - now rewrite app_nil_r.
  - rewrite IH, <- app_assoc. reflexivity.
Qed.

Lemma ReferencesInvalid_range_map (missingRefs : list ObjectRef.t) :
  ReferencesInvalid_range missingRefs
  = map (fun ref => NamespacedName.String (ObjectRef.ObjectKey ref)) missingRefs.
Proof.
  unfold ReferencesInvalid_range.
  now rewrite (fold_left_append_one
                 (fun ref => NamespacedName.String (ObjectRef.ObjectKey ref))).
Qed.

(** C6: [ReferencesInvalid(r, missingRefs)] has type ReferencesValid, status
    False, reason [r], and as message the text
    "Referenced objects are not found: " followed by the [namespace/name]
    coordinates of the references, in the order given, joined by ", "; for
    the reason "MissingDeps" and the references ns1/foo and ns1/bar the
    message is "Referenced objects are not found: ns1/foo, ns1/bar". *)
Theorem ReferencesInvalid_condition (now : Time) (r : ConditionReason)
  (missingRefs : list ObjectRef.t) :
  Condition.Type_ (ReferencesInvalid now r missingRefs) = "ReferencesValid" /\
  Condition.Status (ReferencesInvalid now r missingRefs) = "False" /\
  Condition.Reason (ReferencesInvalid now r missingRefs) = r /\
  Condition.Message (ReferencesInvalid now r missingRefs)
  = ("Referenced objects are not found: "
     ++ strings_Join
          (map (fun ref => ObjectRef.Namespace ref ++ "/" ++ ObjectRef.Name ref)
               missingRefs) ", ")%string /\
  Condition.Message
    (ReferencesInvalid now "MissingDeps"
       [ObjectRef.mk "foo" "ns1"; ObjectRef.mk "bar" "ns1"])
  = "Referenced objects are not found: ns1/foo, ns1/bar".
Proof.
  repeat split.
  unfold ReferencesInvalid. cbn [Condition.Message].
  now rewrite ReferencesInvalid_range_map.
Qed.

(** C7: for a failure [err] with any text, the empty text included,
    [ReconcileError(err)] returns (it does not panic) a condition of type
    Synced, status False, reason ReconcileError, whose message is the text
    of [err]. *)
Theorem ReconcileError_of_failure (now : Time) (text : string) :
  ReconcileError now (error_of text)
  = Some (Condition.mk "Synced" "False" 0 now "ReconcileError" text) /\
  ReconcileError now (error_of "")
  = Some (Condition.mk "Synced" "False" 0 now "ReconcileError" "").
Proof. split; reflexivity. Qed.

(** ** The reference model *)

Lemma string_append_empty (s : string) : (s ++ "")%string = s.
Proof.
  induction s as [|a s IH]; [reflexivity|].
  change (String a (s ++ "")%string = String a s). now rewrite IH.
Qed.

(** C8: [t.ObjectKeyNotSet()] is true exactly when [t.Name] and
    [t.Namespace] are both empty; [Group], [Version] and [Kind] play no
    role; it is true of [TypedObjectRef{}] and false of
    [TypedObjectRef{Name: "x"}]. *)
Theorem ObjectKeyNotSet_iff (r : TypedObjectRef.t) :
  (TypedObjectRef.ObjectKeyNotSet r = true <->
   TypedObjectRef.Name r = "" /\ TypedObjectRef.Namespace r = "") /\
  (forall g v k : string,
     TypedObjectRef.ObjectKeyNotSet
       (TypedObjectRef.mk g v k (TypedObjectRef.Name r)
          (TypedObjectRef.Namespace r))
     = TypedObjectRef.ObjectKeyNotSet r) /\
  TypedObjectRef.ObjectKeyNotSet (TypedObjectRef.mk "" "" "" "" "") = true /\
  TypedObjectRef.ObjectKeyNotSet (TypedObjectRef.mk "" "" "" "x" "") = false.
Proof.
  split; [|split; [|split]]; try reflexivity.
  unfold TypedObjectRef.ObjectKeyNotSet.
  now rewrite andb_true_iff, !string_eqb_true.
Qed.

(** C9: [c.String()] of a [ClusterObjectRef] is its [ClusterID], [Namespace]
    and [Name], in that order, joined on the separator "/"; [t.String()] of
    a [TypedObjectRef] is the [Group/Version, Kind=Kind] form, then ": ",
    then the [namespace/name] coordinate. *)
Theorem String_forms :
  (forall o : ClusterObjectRef.t,
     ClusterObjectRef.String o
     = (ClusterObjectRef.ClusterID o ++ "/" ++ ClusterObjectRef.Namespace o
        ++ "/" ++ ClusterObjectRef.Name o)%string) /\
  (forall r : TypedObjectRef.t,
     TypedObjectRef.String r
     = ((TypedObjectRef.Group r ++ "/" ++ TypedObjectRef.Version r
         ++ ", Kind=" ++ TypedObjectRef.Kind r)
        ++ ": "
        ++ (TypedObjectRef.Namespace r ++ "/" ++ TypedObjectRef.Name r))%string) /\
  ClusterObjectRef.String (ClusterObjectRef.mk "web" "prod" "east")
  = "east/prod/web" /\
  TypedObjectRef.String (TypedObjectRef.mk "apps" "v1" "Deployment" "web" "prod")
  = "apps/v1, Kind=Deployment: prod/web".
Proof.
  split; [|split; [|split]]; try reflexivity.
  intros o. unfold ClusterObjectRef.String, strings_Join, Separator.
  cbn [strings_Join_rest]. now rewrite string_append_empty.
Qed.

(** ** [WithMessage] *)

(** C10: [c.WithMessage(msg)] returns a condition whose [Message] is [msg]
    and whose [Type], [Status], [Reason], [ObservedGeneration] and
    [LastTransitionTime] are those of [c]; the caller's [c] is what it was,
    as the method assigns to its own copy. *)
Theorem WithMessage_sets_only_Message (c : Condition.t) (msg : string) :
  Condition.Message (Condition.WithMessage c msg) = msg /\
  Condition.Type_ (Condition.WithMessage c msg) = Condition.Type_ c /\
  Condition.Status (Condition.WithMessage c msg) = Condition.Status c /\
  Condition.Reason (Condition.WithMessage c msg) = Condition.Reason c /\
  Condition.ObservedGeneration (Condition.WithMessage c msg)
  = Condition.ObservedGeneration c /\
  Condition.LastTransitionTime (Condition.WithMessage c msg)
  = Condition.LastTransitionTime c /\
  snd (call_by_value (Condition.WithMessage_body msg) c) = c.
Proof. repeat split. Qed.

(** ** The order on condition types *)

Lemma string_compare_refl (s : string) : String.compare s s = Eq.
Proof.
  induction s as [|a s IH]; [reflexivity|].
  cbn [String.compare]. unfold Ascii.compare. now rewrite N.compare_refl.
Qed.

Lemma string_compare_lt_trans (a b c : string) :
  String.compare a b = Lt -> String.compare b c = Lt -> String.compare a c = Lt.
Proof.
  revert b c. induction a as [|x a IH]; intros [|y b] [|z c];
    cbn [String.compare]; try congruence.
  unfold Ascii.compare.
  destruct (N_of_ascii x ?= N_of_ascii y)%N eqn:Hxy;
    destruct (N_of_ascii y ?= N_of_ascii z)%N eqn:Hyz;
    try congruence; intros H1 H2.
  - apply N.compare_eq_iff in Hxy. rewrite Hxy, Hyz. eauto.
  - apply N.compare_eq_iff in Hxy. now rewrite Hxy, Hyz.
  - apply N.compare_eq_iff in Hyz. now rewrite <- Hyz, Hxy.
  - apply N.compare_lt_iff in Hxy. apply N.compare_lt_iff in Hyz.
    assert (Hxz : (N_of_ascii x < N_of_ascii z)%N)
      by (eapply N.lt_trans; eassumption).
    apply N.compare_lt_iff in Hxz. now rewrite Hxz.
Qed.

Lemma string_ltb_lt (a b : string) :
  (a <? b)%string = true <-> String.compare a b = Lt.
Proof. unfold String.ltb. destruct (String.compare a b); split; congruence. Qed.

Lemma string_ltb_irrefl (a : string) : (a <? a)%string = false.
Proof. unfold String.ltb. now rewrite string_compare_refl. Qed.

Lemma string_ltb_asym (a b : string) :
  (a <? b)%string = true -> (b <? a)%string = false.
Proof.
  unfold String.ltb. rewrite (String.compare_antisym a b).
  now destruct (String.compare b a).
Qed.

Lemma string_ltb_total (a b : string) :
  (a <? b)%string = false -> (b <? a)%string = false -> a = b.
Proof.
  unfold String.ltb. rewrite (String.compare_antisym a b).
  destruct (String.compare b a) eqn:H; cbn; try congruence.
  intros _ _. symmetry. now apply String.compare_eq_iff.
Qed.

Lemma string_ltb_trans (a b c : string) :
  (a <? b)%string = true -> (b <? c)%string = true -> (a <? c)%string = true.
Proof. rewrite !string_ltb_lt. apply string_compare_lt_trans. Qed.

Lemma less_Type_le (a b : Condition.t) : less_Type a b = true -> le_Type a b.
Proof. apply string_ltb_asym. Qed.

Lemma le_Type_antisym (a b : Condition.t) :
  le_Type a b -> le_Type b a -> Condition.Type_ a = Condition.Type_ b.
Proof. unfold le_Type, less_Type. intros H1 H2. now apply string_ltb_total. Qed.

Lemma le_Type_trans (a b c : Condition.t) :
  le_Type a b -> le_Type b c -> le_Type a c.
Proof.
  unfold le_Type, less_Type. intros Hba Hcb.
  destruct (Condition.Type_ c <? Condition.Type_ a)%string eqn:Hca; [|reflexivity].
  destruct (Condition.Type_ a <? Condition.Type_ b)%string eqn:Hab.
  - rewrite (string_ltb_trans _ _ _ Hca Hab) in Hcb. discriminate.
  - rewrite <- (string_ltb_total _ _ Hab Hba) in Hcb. congruence.
Qed.

Instance le_Type_Transitive : Transitive le_Type.
Proof. intros a b c. apply le_Type_trans. Qed.

(** ** Go's insertion sort: a sorted permutation *)

Section InsertionSort.
Context {A : Type} (less : A -> A -> bool).

Let le (x y : A) : Prop := less y x = false.

Hypothesis less_le : forall x y, less x y = true -> le x y.
Hypothesis le_trans : forall x y z, le x y -> le y z -> le x z.

Lemma swap_adjacent (pre post : list A) (x y : A) :
  <[length pre := x]> (<[S (length pre) := y]> (pre ++ y :: x :: post))
  = pre ++ x :: y :: post.
Proof.
  replace (S (length pre)) with (length pre + 1)%nat by lia.
  rewrite insert_app_r. cbn [list_insert].
  replace (length pre) with (length pre + 0)%nat at 1 by lia.
  now rewrite insert_app_r.
Qed.

(** The inner loop, started on the element after a sorted prefix, sorts that
    element into the prefix and leaves the rest of the slice alone. *)
Lemma sift_sorted_prefix (pre : list A) :
  forall (x : A) (post : list A),
    StronglySorted le pre ->
    exists pre', sift less (pre ++ x :: post) (length pre) = pre' ++ post /\
                 StronglySorted le pre' /\
                 Permutation pre' (pre ++ [x]).
Proof.
  induction pre as [|y p IH] using rev_ind; intros x post Hs.
  - exists [x]. split; [reflexivity|]. split; [repeat constructor|reflexivity].
  - rewrite length_app. cbn [length]. rewrite Nat.add_1_r. cbn [sift].
    assert (Hx : ((p ++ [y]) ++ x :: post) !! S (length p) = Some x).
    { apply list_lookup_middle. rewrite length_app. cbn. lia. }
    assert (Hy : ((p ++ [y]) ++ x :: post) !! length p = Some y).
    { rewrite <- app_assoc. now apply list_lookup_middle. }
    rewrite Hx, Hy.
    apply StronglySorted_app in Hs. destruct Hs as (Hpy & Hp & _).
    destruct (less x y) eqn:Hless.
    + rewrite <- app_assoc. cbn [app]. rewrite swap_adjacent.
      destruct (IH x (y :: post) Hp) as (p' & Hrun & Hp' & Hperm).
      exists (p' ++ [y]). rewrite Hrun, <- app_assoc. split; [reflexivity|].
      split.
      * apply StronglySorted_app_2; [|assumption|repeat constructor].
        intros x1 x2 H1 H2. apply list_elem_of_In in H2. destruct H2 as [<-|[]].
        apply list_elem_of_In in H1.
        apply (Permutation_in _ Hperm) in H1. apply in_app_or in H1.
        destruct H1 as [H1|[<-|[]]].
        -- apply Hpy; [now apply list_elem_of_In | apply list_elem_of_here].
        -- now apply less_le.
      * rewrite Hperm. rewrite <- !app_assoc. apply Permutation_app_head.
        apply perm_swap.
    + exists ((p ++ [y]) ++ [x]). split; [now rewrite <- !app_assoc|].
      split; [|reflexivity].
      apply StronglySorted_app_2; [| |repeat constructor].
      * intros x1 x2 H1 H2. apply list_elem_of_In in H2. destruct H2 as [<-|[]].
        apply list_elem_of_In in H1. apply in_app_or in H1.
        destruct H1 as [H1|[<-|[]]]; [|exact Hless].
        apply le_trans with y; [|exact Hless].
        apply Hpy; [now apply list_elem_of_In | apply list_elem_of_here].
      * apply StronglySorted_app_2; [assumption|assumption|repeat constructor].
Qed.

Lemma insertionSort_from (post : list A) :
  forall pre : list A,
    StronglySorted le pre ->
    exists res,
      fold_left (sift less) (seq (length pre) (length post)) (pre ++ post) = res /\
      StronglySorted le res /\ Permutation res (pre ++ post).
Proof.
  induction post as [|x post IH]; intros pre Hs.
  - exists pre. rewrite app_nil_r. now repeat split.
  - cbn [length seq fold_left].
    destruct (sift_sorted_prefix pre x post Hs) as (pre' & Hrun & Hs' & Hperm).
    rewrite Hrun.
    assert (Hlen : S (length pre) = length pre').
    { rewrite (Permutation_length Hperm), length_app. cbn. lia. }
    rewrite Hlen. destruct (IH pre' Hs') as (res & Hres & Hsr & Hpr).
    exists res. split; [assumption|]. split; [assumption|].
    rewrite Hpr, Hperm, <- app_assoc. reflexivity.
Qed.

Lemma insertionSort_func_sorted_perm (data : list A) :
  StronglySorted le (insertionSort_func less data) /\
  Permutation (insertionSort_func less data) data.
Proof.
  unfold insertionSort_func. destruct data as [|x data].
  - split; constructor.
  - replace (length (x :: data) - 1)%nat with (length data) by (cbn; lia).
    destruct (insertionSort_from data [x]) as (res & Hres & Hs & Hp).
    + repeat constructor.
    + cbn [length app] in Hres. rewrite Hres. now split.
Qed.
End InsertionSort.

Lemma sift_Permutation {A} (less : A -> A -> bool) (j : nat) :
  forall d : list A, Permutation (sift less d j) d.
Proof.
  induction j as [|j IHj]; intros d; [reflexivity|].
  cbn [sift].
  destruct (d !! S j) as [a|] eqn:Ha; [|reflexivity].
  destruct (d !! j) as [b|] eqn:Hb; [|reflexivity].
  destruct (less a b); [|reflexivity].
  rewrite IHj.
  rewrite <- (take_drop_middle d j b Hb) at 2.
  assert (Hd : drop (S j) d = a :: drop (S (S j)) d) by now apply drop_S.
  rewrite <- (take_drop_middle d j b Hb) at 1. rewrite Hd.
  assert (Hlen : length (take j d) = j).
  { rewrite length_take. apply lookup_lt_Some in Hb. lia. }
  rewrite <- Hlen at 1 2.
  rewrite swap_adjacent. apply Permutation_app_head, perm_swap.
Qed.

(** Whatever [less] is, the routine only swaps elements. *)
Lemma insertionSort_func_Permutation {A} (less : A -> A -> bool) (l : list A) :
  Permutation (insertionSort_func less l) l.
Proof.
  unfold insertionSort_func. generalize (seq 1 (length l - 1)) as idx.
  intros idx. revert l. induction idx as [|j idx IH]; intros d; [reflexivity|].
  cbn [fold_left]. rewrite IH. apply sift_Permutation.
Qed.

Lemma insertionSort_func_Sorted (l : list Condition.t) :
  Sorted le_Type (insertionSort_func less_Type l).
Proof.
  apply StronglySorted_Sorted.
  apply (insertionSort_func_sorted_perm less_Type less_Type_le
           (fun x y z => le_Type_trans x y z)).
Qed.

(** The routine reaches the elements only through [less] and swaps: on two
    slices whose elements are related position by position, and on which
    [less] answers alike, it leaves related elements at every position. *)
Lemma sift_Forall2 {A} (R : A -> A -> Prop) (less : A -> A -> bool) :
  (forall x x' y y', R x x' -> R y y' -> less x y = less x' y') ->
  forall (j : nat) (d d' : list A),
    Forall2 R d d' -> Forall2 R (sift less d j) (sift less d' j).
Proof.
  intros Hless. induction j as [|j IH]; intros d d' Hd; [assumption|].
  cbn [sift].
  pose proof (proj1 (Forall2_lookup R d d') Hd (S j)) as H1.
  pose proof (proj1 (Forall2_lookup R d d') Hd j) as H0.
  destruct H1 as [x x' Hx|]; [|assumption].
  destruct H0 as [y y' Hy|]; [|assumption].
  rewrite (Hless x x' y y' Hx Hy).
  destruct (less x' y'); [|assumption].
  apply IH. now repeat apply Forall2_insert.
Qed.

Lemma insertionSort_func_Forall2 {A} (R : A -> A -> Prop) (less : A -> A -> bool) :
  (forall x x' y y', R x x' -> R y y' -> less x y = less x' y') ->
  forall l l' : list A,
    Forall2 R l l' ->
    Forall2 R (insertionSort_func less l) (insertionSort_func less l').
Proof.
  intros Hless l l' Hl. unfold insertionSort_func.
  rewrite <- (Forall2_length R l l' Hl).
  generalize (seq 1 (length l - 1)) as idx. intros idx.
  revert l l' Hl. induction idx as [|j idx IH]; intros l l' Hl; [assumption|].
  cbn [fold_left]. apply IH. now apply sift_Forall2.
Qed.

(** ** Running [ConditionedStatus.Equal] in the store *)

Lemma bind_Some {A B} (m : M A) (k : A -> M B) (h h' : store) (a : A) :
  m h = Some (a, h') -> bind m k h = k a h'.
Proof. intros H. unfold bind. now rewrite H. Qed.

Lemma len_run (h : store) (x : loc) (a : list Condition.t) :
  h !! x = Some a -> len x h = Some (length a, h).
Proof. intros H. unfold len. now rewrite H. Qed.

Lemma copy_run (h : store) (dst src : loc) (d a : list Condition.t) :
  h !! dst = Some d -> h !! src = Some a -> length d = length a ->
  copy dst src h = Some (tt, <[dst := a]> h).
Proof.
  intros Hd Ha Hlen. unfold copy. rewrite Hd, Ha.
  rewrite take_ge by lia. rewrite <- Hlen, drop_all. now rewrite app_nil_r.
Qed.

Lemma sort_Slice_run (srt : list Condition.t -> list Condition.t) (h : store)
  (x : loc) (a : list Condition.t) :
  h !! x = Some a -> sort_Slice srt x h = Some (tt, <[x := srt a]> h).
Proof. intros H. unfold sort_Slice. now rewrite H. Qed.

Lemma index_run (h : store) (x : loc) (pre post : list Condition.t)
  (c : Condition.t) :
  h !! x = Some (pre ++ c :: post) -> index x (length pre) h = Some (c, h).
Proof.
  intros H. unfold index. rewrite H.
  now rewrite (list_lookup_middle pre post c (length pre) eq_refl).
Qed.

Lemma Equal_range_run (h : store) (sc oc : loc) (l1 : list Condition.t) :
  forall l2 p1 p2 : list Condition.t,
    h !! sc = Some (p1 ++ l1) -> h !! oc = Some (p2 ++ l2) ->
    length p1 = length p2 -> length l1 = length l2 ->
    Equal_range sc oc (seq (length p1) (length l1)) h
    = Some (pairwise_Equal l1 l2, h).
Proof.
  induction l1 as [|x l1 IH]; intros [|y l2] p1 p2 Hsc Hoc Hp Hl;
    try discriminate; [reflexivity|].
  cbn [length seq Equal_range pairwise_Equal].
  rewrite (bind_Some _ _ _ _ _ (index_run _ _ _ _ _ Hsc)).
  rewrite Hp. rewrite (bind_Some _ _ _ _ _ (index_run _ _ _ _ _ Hoc)).
  destruct (Condition.Equal x y); cbn [negb andb]; [|reflexivity].
  replace (S (length p2)) with (length (p1 ++ [x]))
    by (rewrite length_app; cbn; lia).
  apply IH with (p2 := p2 ++ [y]).
  - now rewrite <- app_assoc.
  - now rewrite <- app_assoc.
  - rewrite !length_app. cbn. lia.
  - cbn in Hl. lia.
Qed.

Lemma pairwise_Equal_timeless (a b : list Condition.t) :
  pairwise_Equal a b = true <-> map timeless a = map timeless b.
Proof.
  revert b. induction a as [|x a IH]; intros [|y b]; cbn [pairwise_Equal map].
  - tauto.
  - split; discriminate.
  - split; discriminate.
  - rewrite andb_true_iff, IH, Condition_Equal_timeless.
    split; [intros [-> ->]; reflexivity | intros H; split; congruence].
Qed.

Lemma pairwise_Equal_refl (a : list Condition.t) : pairwise_Equal a a = true.
Proof. now apply pairwise_Equal_timeless. Qed.

Lemma pairwise_Equal_sym (a b : list Condition.t) :
  pairwise_Equal a b = pairwise_Equal b a.
Proof.
  apply eq_true_iff_eq. rewrite !pairwise_Equal_timeless. split; congruence.
Qed.

Lemma map_timeless_Types (l : list Condition.t) :
  map Condition.Type_ (map timeless l) = map Condition.Type_ l.
Proof. rewrite map_map. now apply map_ext. Qed.

Lemma Sorted_map_timeless (l : list Condition.t) :
  Sorted le_Type l -> Sorted le_Type (map timeless l).
Proof.
  induction 1 as [|x l Hl IH Hhd]; cbn [map]; constructor; [assumption|].
  destruct Hhd; cbn [map]; constructor. assumption.
Qed.

Lemma NoDup_map_eq {A B} (f : A -> B) (l : list A) (x y : A) :
  NoDup (map f l) -> In x l -> In y l -> f x = f y -> x = y.
Proof.
  induction l as [|z l IH]; cbn [map]; intros Hnd Hx Hy Hf; [destruct Hx|].
  apply NoDup_cons in Hnd. destruct Hnd as [Hz Hnd].
  rewrite list_elem_of_In in Hz.
  destruct Hx as [->|Hx], Hy as [->|Hy]; auto.
  - exfalso. apply Hz. rewrite Hf. now apply in_map.
  - exfalso. apply Hz. rewrite <- Hf. now apply in_map.
Qed.

Lemma same_multiset_unique (a b : list Condition.t) :
  same_multiset a b -> unique_types a -> unique_types b.
Proof.
  unfold same_multiset, unique_types. intros Hm Hu.
  rewrite <- (map_timeless_Types b).
  rewrite <- (Permutation_map Condition.Type_ Hm).
  now rewrite map_timeless_Types.
Qed.

Lemma same_multiset_sym (a b : list Condition.t) :
  same_multiset a b -> same_multiset b a.
Proof. apply Permutation_sym. Qed.

Lemma same_multiset_length (a b : list Condition.t) :
  same_multiset a b -> length a = length b.
Proof.
  intros H. apply Permutation_length in H. now rewrite !length_map in H.
Qed.

Lemma Permutation_same_multiset (a a' : list Condition.t) :
  Permutation a a' -> same_multiset a a'.
Proof. apply Permutation_map. Qed.

Lemma same_but_times_timeless (a a' : list Condition.t) :
  same_but_times a a' -> map timeless a = map timeless a'.
Proof.
  induction 1 as [|x y a a' Hxy _ IH]; cbn [map]; [reflexivity|].
  apply Condition_Equal_timeless in Hxy. now rewrite Hxy, IH.
Qed.

Section EqualInStore.
Variable sort_impl :
  (Condition.t -> Condition.t -> bool) -> list Condition.t -> list Condition.t.

(** What [sort.Slice] promises of its result: the elements it was given, with
    no element less than the one before it. *)
Hypothesis sort_impl_Permutation :
  forall l, Permutation (sort_impl less_Type l) l.
Hypothesis sort_impl_Sorted :
  forall l, Sorted le_Type (sort_impl less_Type l).

(** How it works: it reaches the elements only through [less] and swaps, so
    on two slices whose elements are related position by position and
    compare alike, it leaves related elements at every position. *)
Hypothesis sort_impl_by_less :
  forall R : Condition.t -> Condition.t -> Prop,
    (forall x x' y y', R x x' -> R y y' -> less_Type x y = less_Type x' y') ->
    forall l l', Forall2 R l l' ->
                 Forall2 R (sort_impl less_Type l) (sort_impl less_Type l').

(** The call returns; its boolean compares the lengths and then the sorted
    copies, and every array that was in the store is as it was. *)
Lemma Equal_run (h : store) (s other : loc) (a b : list Condition.t) :
  h !! s = Some a -> h !! other = Some b ->
  exists h',
    Equal sort_impl (Some s) (Some other) h
    = Some ((length b =? length a)%nat
            && pairwise_Equal (sort_impl less_Type a) (sort_impl less_Type b),
            h') /\
    (forall x v, h !! x = Some v -> h' !! x = Some v).
Proof.
  intros Hs Ho. unfold Equal.
  rewrite (bind_Some _ _ _ _ _ (len_run _ _ _ Ho)).
  rewrite (bind_Some _ _ _ _ _ (len_run _ _ _ Hs)).
  destruct (length b =? length a)%nat eqn:Hlen; cbn [negb andb].
  2: { exists h. split; [reflexivity|auto]. }
  apply Nat.eqb_eq in Hlen.
  (* sc := make(...); copy(sc, s.Conditions) *)
  set (sc := fresh (dom h)).
  assert (Hsc : h !! sc = None) by apply not_elem_of_dom, is_fresh.
  rewrite (bind_Some (make (length a)) _ h
             (<[sc := replicate (length a) Condition.zero]> h) sc eq_refl).
  assert (Hsc_s : sc <> s) by congruence.
  assert (Hsc_o : sc <> other) by congruence.
  erewrite (bind_Some (copy sc s));
    [|apply copy_run with (d := replicate (length a) Condition.zero);
      [apply lookup_insert_eq
      |rewrite lookup_insert_ne by assumption; exact Hs
      |apply length_replicate]].
  rewrite insert_insert_eq.
  set (h2 := <[sc := a]> h).
  assert (Ho2 : h2 !! other = Some b)
    by (unfold h2; now rewrite lookup_insert_ne).
  (* oc := make(...); copy(oc, other.Conditions) *)
  set (oc := fresh (dom h2)).
  assert (Hoc : h2 !! oc = None) by apply not_elem_of_dom, is_fresh.
  rewrite (bind_Some (make (length b)) _ h2
             (<[oc := replicate (length b) Condition.zero]> h2) oc eq_refl).
  assert (Hoc_o : oc <> other) by congruence.
  assert (Hoc_sc : oc <> sc).
  { intros E. rewrite E in Hoc. unfold h2 in Hoc.
    rewrite lookup_insert_eq in Hoc. discriminate. }
  erewrite (bind_Some (copy oc other));
    [|apply copy_run with (d := replicate (length b) Condition.zero);
      [apply lookup_insert_eq
      |rewrite lookup_insert_ne by assumption; exact Ho2
      |apply length_replicate]].
  rewrite insert_insert_eq.
  set (h4 := <[oc := b]> h2).
  assert (Hsc4 : h4 !! sc = Some a).
  { unfold h4, h2. rewrite lookup_insert_ne by assumption.
    apply lookup_insert_eq. }
  (* the two calls of sort.Slice *)
  erewrite (bind_Some (sort_Slice _ sc)); [|apply sort_Slice_run, Hsc4].
  set (h5 := <[sc := sort_impl less_Type a]> h4).
  assert (Hoc5 : h5 !! oc = Some b).
  { unfold h5, h4. rewrite lookup_insert_ne by congruence.
    apply lookup_insert_eq. }
  erewrite (bind_Some (sort_Slice _ oc)); [|apply sort_Slice_run, Hoc5].
  set (h6 := <[oc := sort_impl less_Type b]> h5).
  assert (Hsc6 : h6 !! sc = Some (sort_impl less_Type a)).
  { unfold h6, h5. rewrite lookup_insert_ne by assumption.
    apply lookup_insert_eq. }
  assert (Hoc6 : h6 !! oc = Some (sort_impl less_Type b))
    by apply lookup_insert_eq.
  (* the loop *)
  rewrite (bind_Some _ _ _ _ _ (len_run _ _ _ Hsc6)).
  exists h6. split.
  - apply (Equal_range_run h6 sc oc _ _ [] [] Hsc6 Hoc6 eq_refl).
    rewrite (Permutation_length (sort_impl_Permutation a)).
    rewrite (Permutation_length (sort_impl_Permutation b)). now symmetry.
  - intros x v Hx.
    assert (x <> sc) by congruence.
    assert (x <> oc).
    { intros ->. unfold h2 in Hoc. rewrite lookup_insert_ne in Hoc by auto.
      congruence. }
    unfold h6, h5, h4, h2. now rewrite !lookup_insert_ne by auto.
Qed.

Lemma sorted_copies_same_multiset (a b : list Condition.t) :
  pairwise_Equal (sort_impl less_Type a) (sort_impl less_Type b) = true ->
  same_multiset a b.
Proof.
  intros H. apply pairwise_Equal_timeless in H. unfold same_multiset.
  rewrite <- (Permutation_map timeless (sort_impl_Permutation a)).
  rewrite <- (Permutation_map timeless (sort_impl_Permutation b)).
  now rewrite H.
Qed.

Lemma same_multiset_sorted_copies (a b : list Condition.t) :
  unique_types a -> same_multiset a b ->
  pairwise_Equal (sort_impl less_Type a) (sort_impl less_Type b) = true.
Proof.
  intros Hu Hm. apply pairwise_Equal_timeless.
  assert (Hperm : Permutation (map timeless (sort_impl less_Type a))
                              (map timeless (sort_impl less_Type b))).
  { rewrite (Permutation_map timeless (sort_impl_Permutation a)).
    rewrite (Permutation_map timeless (sort_impl_Permutation b)). exact Hm. }
  apply (Sorted_unique_strong le_Type); [| | |exact Hperm].
  - intros x1 x2 H1 H2 H12 H21.
    apply list_elem_of_In in H1. apply list_elem_of_In in H2.
    apply (Permutation_in _ (Permutation_sym Hperm)) in H2.
    apply (NoDup_map_eq Condition.Type_ (map timeless (sort_impl less_Type a)));
      auto using le_Type_antisym.
    rewrite map_timeless_Types.
    rewrite (Permutation_map Condition.Type_ (sort_impl_Permutation a)).
    exact Hu.
  - apply Sorted_map_timeless, sort_impl_Sorted.
  - apply Sorted_map_timeless, sort_impl_Sorted.
Qed.

Lemma sorted_copies_same_but_times (a a2 b b2 : list Condition.t) :
  same_but_times a a2 -> same_but_times b b2 ->
  pairwise_Equal (sort_impl less_Type a2) (sort_impl less_Type b2)
  = pairwise_Equal (sort_impl less_Type a) (sort_impl less_Type b).
Proof.
  intros Ha Hb.
  assert (Hsort : forall l l', same_but_times l l' ->
            map timeless (sort_impl less_Type l)
            = map timeless (sort_impl less_Type l')).
  { intros l l' Hl. apply same_but_times_timeless.
    apply sort_impl_by_less; [|exact Hl].
    intros x x' y y' Hx Hy. unfold less_Type.
    now rewrite (Condition_Equal_Type _ _ Hx), (Condition_Equal_Type _ _ Hy). }
  apply eq_true_iff_eq. rewrite !pairwise_Equal_timeless.
  now rewrite (Hsort a a2 Ha), (Hsort b b2 Hb).
Qed.

Lemma Equal_result_true (a b : list Condition.t) :
  unique_types a \/ unique_types b -> same_multiset a b ->
  (length b =? length a)%nat
  && pairwise_Equal (sort_impl less_Type a) (sort_impl less_Type b) = true.
Proof.
  intros Hu Hm. apply andb_true_iff. split.
  - apply Nat.eqb_eq. symmetry. now apply same_multiset_length.
  - apply same_multiset_sorted_copies; [|assumption].
    destruct Hu as [Hu|Hu]; [assumption|].
    eauto using same_multiset_unique, same_multiset_sym.
Qed.

Lemma Equal_result_iff (a b : list Condition.t) :
  unique_types a \/ unique_types b ->
  (length b =? length a)%nat
  && pairwise_Equal (sort_impl less_Type a) (sort_impl less_Type b) = true
  <-> same_multiset a b.
Proof.
  intros Hu. split.
  - intros H. apply andb_true_iff in H. destruct H as [_ H].
    now apply sorted_copies_same_multiset.
  - now apply Equal_result_true.
Qed.

(** ** The claim about [ConditionedStatus.Equal] *)

(** C4, as the code has it: [Equal] returns true for two nil statuses and
    false when exactly one is nil; for two statuses in the store it returns
    and leaves every array of the store, those of both statuses included, as
    it was; when it returns true the two hold the same multiset of
    conditions, transition times ignored; and when one of the two holds at
    most one condition of each type, it returns true exactly when they hold
    the same multiset. [Equal] is reflexive and symmetric, and its result
    does not change under a change of transition times only; on statuses
    with at most one condition of each type its result does not change
    under a permutation of either list. *)
Theorem Equal_same_multiset_on_unique_types (h : store) (s other : loc)
  (a b : list Condition.t) :
  h !! s = Some a -> h !! other = Some b ->
  Equal sort_impl None None h = Some (true, h) /\
  Equal sort_impl (Some s) None h = Some (false, h) /\
  Equal sort_impl None (Some other) h = Some (false, h) /\
  (exists (r : bool) (h' : store),
     Equal sort_impl (Some s) (Some other) h = Some (r, h') /\
     (forall x v, h !! x = Some v -> h' !! x = Some v) /\
     (r = true -> same_multiset a b) /\
     (unique_types a \/ unique_types b -> same_multiset a b -> r = true)) /\
  Equal_result sort_impl (Some s) (Some s) h = Some true /\
  Equal_result sort_impl (Some s) (Some other) h
  = Equal_result sort_impl (Some other) (Some s) h /\
  (forall (h2 : store) (s2 o2 : loc) (a2 b2 : list Condition.t),
     h2 !! s2 = Some a2 -> h2 !! o2 = Some b2 ->
     same_but_times a a2 -> same_but_times b b2 ->
     Equal_result sort_impl (Some s2) (Some o2) h2
     = Equal_result sort_impl (Some s) (Some other) h) /\
  (unique_types a \/ unique_types b ->
   forall (h2 : store) (s2 o2 : loc) (a2 b2 : list Condition.t),
     h2 !! s2 = Some a2 -> h2 !! o2 = Some b2 ->
     Permutation a a2 -> Permutation b b2 ->
     Equal_result sort_impl (Some s2) (Some o2) h2
     = Equal_result sort_impl (Some s) (Some other) h).
Proof.
  intros Hs Ho.
  split; [reflexivity|]. split; [reflexivity|]. split; [reflexivity|].
  split; [|split; [|split; [|split]]].
  - destruct (Equal_run h s other a b Hs Ho) as (h' & Hrun & Hframe).
    eexists _, h'. split; [exact Hrun|]. split; [exact Hframe|]. split.
    + intros Hr. apply andb_true_iff in Hr. destruct Hr as [_ Hr].
      now apply sorted_copies_same_multiset.
    + intros Hu Hm. now apply Equal_result_true.
  - unfold Equal_result.
    destruct (Equal_run h s s a a Hs Hs) as (h' & -> & _). cbn.
    now rewrite Nat.eqb_refl, pairwise_Equal_refl.
  - unfold Equal_result.
    destruct (Equal_run h s other a b Hs Ho) as (h1 & -> & _).
    destruct (Equal_run h other s b a Ho Hs) as (h2 & -> & _). cbn.
    now rewrite Nat.eqb_sym, pairwise_Equal_sym.
  - intros h2 s2 o2 a2 b2 Hs2 Ho2 Ha Hb. unfold Equal_result.
    destruct (Equal_run h s other a b Hs Ho) as (h1' & -> & _).
    destruct (Equal_run h2 s2 o2 a2 b2 Hs2 Ho2) as (h2' & -> & _). cbn.
    rewrite (sorted_copies_same_but_times a a2 b b2 Ha Hb).
    now rewrite <- (Forall2_length _ _ _ Ha), <- (Forall2_length _ _ _ Hb).
  - intros Hu h2 s2 o2 a2 b2 Hs2 Ho2 Ha Hb.
    apply Permutation_same_multiset in Ha, Hb.
    unfold Equal_result.
    destruct (Equal_run h s other a b Hs Ho) as (h1' & -> & _).
    destruct (Equal_run h2 s2 o2 a2 b2 Hs2 Ho2) as (h2' & -> & _). cbn.
    f_equal. apply eq_true_iff_eq.
    rewrite (Equal_result_iff a b Hu).
    rewrite (Equal_result_iff a2 b2).
    + unfold same_multiset in *. split; intros H.
      * now rewrite Ha, H, Hb.
      * now rewrite <- Ha, H, <- Hb.
    + destruct Hu as [Hu|Hu]; [left|right];
        eauto using same_multiset_unique.
Qed.
End EqualInStore.

(** ** The claims at sample values *)

(** Available replaces Creating, the entry of its type, where it stands. *)
Lemma SetConditions_append_replace_keep_witness :
  Conditions (SetConditions (mk [sample_creating; sample_synced])
                            [sample_available]) !! 0%nat
  = Some sample_available.
Proof.
  apply (proj1 (proj2 (SetConditions_append_replace_keep
                         (mk [sample_creating; sample_synced])
                         sample_available))
           0%nat sample_creating); reflexivity.
Defined.

(** Three conditions, two of them of the type already held. *)
Lemma SetConditions_keeps_unique_types_witness :
  unique_types
    (Conditions (SetConditions (mk [sample_creating])
                   [sample_available; sample_synced; sample_creating])).
Proof.
  apply (proj1 SetConditions_keeps_unique_types).
  apply NoDup_singleton.
Defined.

(** A status that holds Ready only, asked for Synced. *)
Lemma GetCondition_absent_or_stored_witness :
  GetCondition (mk [sample_creating]) TypeSynced
  = Condition.mk TypeSynced "Unknown" 0 Time_zero "" "".
Proof.
  apply (proj1 GetCondition_absent_or_stored (mk [sample_creating]) TypeSynced).
  intros c [<-|[]]. discriminate.
Defined.

(** The two statuses of [sample_store], under Go's insertion sort. *)
Lemma Equal_same_multiset_on_unique_types_witness :
  Equal_result (@insertionSort_func Condition.t) (Some 1%nat) (Some 2%nat)
    sample_store = Some true.
Proof.
  destruct (Equal_same_multiset_on_unique_types
              (@insertionSort_func Condition.t)
              (insertionSort_func_Permutation less_Type)
              insertionSort_func_Sorted
              (fun R => insertionSort_func_Forall2 R less_Type)
              sample_store 1%nat 2%nat
              [sample_available; sample_synced]
              [sample_synced; sample_available_later]
              eq_refl eq_refl)
    as (_ & _ & _ & (r & h' & Hrun & _ & _ & Hr) & _).
  unfold Equal_result. rewrite Hrun. cbn [option_map fst]. f_equal.
  apply Hr.
  - left. unfold unique_types. cbn [map]. apply NoDup_cons. split.
    + intros H. apply list_elem_of_In in H. destruct H as [H|[]]. discriminate.
    + apply NoDup_singleton.
  - unfold same_multiset. cbn [map]. apply perm_swap.
Defined.

(** C4, as the claim states it, fails on a status that holds two conditions
    of one type: the two statuses of [sample_store_repeated] hold the same
    multiset of conditions, each is a permutation of the other and [Equal]
    to itself, and [Equal] of the two is false (the insertion sort that
    [sort.Slice] runs on short slices leaves conditions of one type in the
    order it found them). So it is not so that [Equal] is true exactly when
    the multisets are identical, nor that a permutation of one list leaves
    its result as it was. *)
Lemma Equal_false_on_permuted_repeated_type :
  ~ (Equal_result (@insertionSort_func Condition.t) (Some 1%nat) (Some 2%nat)
       sample_store_repeated = Some true
     <-> same_multiset [sample_creating; sample_available]
                       [sample_available; sample_creating]) /\
  same_multiset [sample_creating; sample_available]
                [sample_available; sample_creating] /\
  Permutation [sample_creating; sample_available]
              [sample_available; sample_creating] /\
  sample_store_repeated !! 1%nat = Some [sample_creating; sample_available] /\
  sample_store_repeated !! 2%nat = Some [sample_available; sample_creating] /\
  Equal_result (@insertionSort_func Condition.t) (Some 1%nat) (Some 1%nat)
    sample_store_repeated = Some true /\
  Equal_result (@insertionSort_func Condition.t) (Some 1%nat) (Some 2%nat)
    sample_store_repeated = Some false.
Proof.
  assert (Hrun : Equal_result (@insertionSort_func Condition.t)
                   (Some 1%nat) (Some 2%nat) sample_store_repeated
                 = Some false) by (vm_compute; reflexivity).
  assert (Hsame : same_multiset [sample_creating; sample_available]
                                [sample_available; sample_creating])
    by apply perm_swap.
  split.
  - intros [_ H]. specialize (H Hsame). rewrite Hrun in H. discriminate.
  - repeat split; try assumption; try apply perm_swap.
Qed.

(** * [SetConditions] in memory *)

(** ** Arrays, slices and their elements *)

Lemma array_insert_eq (h : store) (b : loc) (a : list Condition.t) :
  Mem.array (<[b := a]> h) b = a.
Proof. unfold Mem.array. now rewrite lookup_insert_eq. Qed.

Lemma array_insert_ne (h : store) (b b' : loc) (a : list Condition.t) :
  b <> b' -> Mem.array (<[b := a]> h) b' = Mem.array h b'.
Proof. intros H. unfold Mem.array. now rewrite lookup_insert_ne. Qed.

Lemma array_lookup_Some (h : store) (b : loc) (j : nat) (e : Condition.t) :
  Mem.array h b !! j = Some e ->
  exists a, h !! b = Some a /\ a !! j = Some e.
Proof.
  unfold Mem.array. destruct (h !! b) as [a|]; cbn; [eauto|discriminate].
Qed.

Lemma view_lookup (h : store) (x : Mem.slice) (k : nat) :
  Mem.view h x !! k
  = if decide (k < Mem.len x)%nat
    then Mem.array h (Mem.base x) !! (Mem.off x + k)%nat else None.
Proof. unfold Mem.view. now rewrite lookup_take, lookup_drop. Qed.

Lemma view_length (h : store) (x : Mem.slice) :
  Mem.valid h x -> length (Mem.view h x) = Mem.len x.
Proof.
  intros [H1 H2]. unfold Mem.view. rewrite length_take, length_drop. lia.
Qed.

Lemma view_lookup_len (h : store) (x : Mem.slice) (k : nat) (e : Condition.t) :
  Mem.view h x !! k = Some e ->
  (k < Mem.len x)%nat /\ Mem.array h (Mem.base x) !! (Mem.off x + k)%nat = Some e.
Proof.
  rewrite view_lookup. destruct (decide (k < Mem.len x)%nat); [auto|discriminate].
Qed.

Lemma take_S_insert {A} (d : list A) (n : nat) (v : A) :
  (n < length d)%nat -> take (S n) (<[n := v]> d) = take n d ++ [v].
Proof.
  revert d. induction n as [|n IH]; intros [|y d] H; cbn in *; try lia.
  - reflexivity.
  - f_equal. apply IH. lia.
Qed.

(** ** Reading and writing cells *)

Lemma store_at_run (h : store) (b : loc) (j : nat) (v : Condition.t) :
  (j < length (Mem.array h b))%nat ->
  exists h',
    Mem.store_at b j v h = Some (tt, h') /\
    Mem.array h' b = <[j := v]> (Mem.array h b) /\
    (forall b', b' <> b -> Mem.array h' b' = Mem.array h b').
Proof.
  intros Hj. unfold Mem.store_at, Mem.array in *.
  destruct (h !! b) as [a|] eqn:Hb; cbn in Hj; [|lia].
  apply Nat.ltb_lt in Hj. rewrite Hj. eexists. split; [reflexivity|].
  split.
  - now rewrite lookup_insert_eq.
  - intros b' Hb'. now rewrite lookup_insert_ne by congruence.
Qed.

(** The elements of a slice after one cell of the array at [b] changed. *)
Lemma view_after_store (h h' : store) (b : loc) (j : nat) (v : Condition.t)
  (x : Mem.slice) :
  Mem.array h' b = <[j := v]> (Mem.array h b) ->
  (forall b', b' <> b -> Mem.array h' b' = Mem.array h b') ->
  Mem.view h' x
  = if decide (Mem.base x = b /\ (Mem.off x <= j < Mem.off x + Mem.len x)%nat)
    then <[(j - Mem.off x)%nat := v]> (Mem.view h x)
    else Mem.view h x.
Proof.
  intros Hb Hother. unfold Mem.view.
  destruct (decide (Mem.base x = b)) as [E|E].
  - rewrite E, Hb, drop_insert.
    destruct (decide (Mem.off x <= j)%nat) as [Hle|Hle].
    + rewrite take_insert.
      destruct (decide (j - Mem.off x < Mem.len x)%nat);
        destruct (decide (_ /\ _)) as [D|D]; try reflexivity; exfalso.
      * apply D. split; [reflexivity|lia].
      * destruct D as [_ D]. lia.
    + destruct (decide (_ /\ _)) as [[_ D]|D]; [lia|reflexivity].
  - rewrite Hother by assumption.
    destruct (decide (_ /\ _)) as [[D _]|D]; [contradiction|reflexivity].
Qed.

Lemma valid_same_lengths (h h' : store) (x : Mem.slice) :
  (forall b, length (Mem.array h b) <= length (Mem.array h' b))%nat ->
  Mem.valid h x -> Mem.valid h' x.
Proof.
  intros Hlen [H1 H2]. split; [assumption|].
  specialize (Hlen (Mem.base x)). lia.
Qed.

Lemma store_lengths (h h' : store) (b : loc) (j : nat) (v : Condition.t) :
  Mem.array h' b = <[j := v]> (Mem.array h b) ->
  (forall b', b' <> b -> Mem.array h' b' = Mem.array h b') ->
  forall b', (length (Mem.array h b') <= length (Mem.array h' b'))%nat.
Proof.
  intros Hb Hother b'. destruct (decide (b' = b)) as [->|E].
  - rewrite Hb, length_insert. lia.
  - rewrite Hother by assumption. lia.
Qed.

Lemma get_run (h : store) (x : Mem.slice) (i : nat) (e : Condition.t) :
  Mem.view h x !! i = Some e -> Mem.get x i h = Some (e, h).
Proof.
  intros H. apply view_lookup_len in H. destruct H as [Hi He].
  unfold Mem.get. apply Nat.ltb_lt in Hi. rewrite Hi.
  apply array_lookup_Some in He. destruct He as (a & Ha & He).
  unfold index. now rewrite Ha, He.
Qed.

(** A write [x[i] = v] changes that element of [x], and no element of a
    slice that is apart from [x]. *)
Lemma set_run (h : store) (x : Mem.slice) (i : nat) (e v : Condition.t) :
  Mem.valid h x -> Mem.view h x !! i = Some e ->
  exists h',
    Mem.set x i v h = Some (tt, h') /\
    Mem.view h' x = <[i := v]> (Mem.view h x) /\
    (forall c, Mem.apart c x -> Mem.view h' c = Mem.view h c) /\
    (forall y, Mem.valid h y -> Mem.valid h' y).
Proof.
  intros [Hlc Hcap] H. apply view_lookup_len in H. destruct H as [Hi He].
  assert (Hj : (Mem.off x + i < length (Mem.array h (Mem.base x)))%nat)
    by (apply lookup_lt_Some in He; exact He).
  destruct (store_at_run h (Mem.base x) (Mem.off x + i) v Hj)
    as (h' & Hrun & Hb & Hother).
  exists h'. split; [|split; [|split]].
  - unfold Mem.set. apply Nat.ltb_lt in Hi. now rewrite Hi.
  - rewrite (view_after_store h h' _ _ v x Hb Hother).
    destruct (decide (_ /\ _)) as [_|D].
    + f_equal. lia.
    + exfalso. apply D. split; [reflexivity|lia].
  - intros c Hc. rewrite (view_after_store h h' _ _ v c Hb Hother).
    destruct (decide (_ /\ _)) as [[D1 D2]|_]; [|reflexivity].
    exfalso. destruct Hc as [Hc|[Hc|Hc]]; [contradiction|lia|lia].
  - intros y. apply valid_same_lengths.
    exact (store_lengths h h' (Mem.base x) (Mem.off x + i) v Hb Hother).
Qed.

(** [append] adds the element at the end of the slice it returns, and
    changes no element of a slice that is apart from [x]; that slice is
    apart from the returned one too. *)
Lemma append_run (spare : nat -> nat) (h : store) (x c : Mem.slice)
  (v : Condition.t) :
  Mem.valid h x -> Mem.valid h c -> Mem.apart c x ->
  exists (x' : Mem.slice) (h' : store),
    Mem.append spare x v h = Some (x', h') /\
    Mem.view h' x' = Mem.view h x ++ [v] /\
    Mem.view h' c = Mem.view h c /\
    Mem.valid h' x' /\ Mem.valid h' c /\ Mem.apart c x'.
Proof.
  intros Hx Hc Hapart. pose proof Hx as [Hlc Hcap]. unfold Mem.append.
  destruct (Mem.len x <? Mem.cap x)%nat eqn:Hlt.
  - apply Nat.ltb_lt in Hlt.
    assert (Hj : (Mem.off x + Mem.len x
                  < length (Mem.array h (Mem.base x)))%nat) by lia.
    destruct (store_at_run h (Mem.base x) (Mem.off x + Mem.len x) v Hj)
      as (h' & Hrun & Hb & Hother).
    eexists _, h'. unfold bind. rewrite Hrun. split; [reflexivity|].
    split; [|split; [|split; [|split]]].
    + unfold Mem.view. cbn [Mem.len Mem.off Mem.base].
      rewrite Hb, drop_insert_ge by lia.
      replace (Mem.off x + Mem.len x - Mem.off x)%nat with (Mem.len x) by lia.
      apply take_S_insert. rewrite length_drop. lia.
    + rewrite (view_after_store h h' _ _ v c Hb Hother).
      destruct (decide (_ /\ _)) as [[D1 D2]|_]; [|reflexivity].
      exfalso. destruct Hapart as [Ha|[Ha|Ha]]; [contradiction|lia|lia].
    + split; cbn [Mem.len Mem.off Mem.base Mem.cap]; [lia|].
      rewrite Hb, length_insert. lia.
    + eapply valid_same_lengths; [|exact Hc].
      exact (store_lengths h h' (Mem.base x) (Mem.off x + Mem.len x) v Hb Hother).
    + exact Hapart.
  - apply Nat.ltb_ge in Hlt.
    set (b := fresh (dom h)).
    assert (Hfresh : h !! b = None) by apply not_elem_of_dom, is_fresh.
    assert (Hempty : Mem.array h b = []) by (unfold Mem.array; now rewrite Hfresh).
    eexists _, _. split; [reflexivity|].
    fold b. split; [|split; [|split; [|split]]].
    + unfold Mem.view at 1. cbn [Mem.len Mem.off Mem.base].
      rewrite array_insert_eq, drop_0.
      change (Mem.view h x ++ v :: replicate (spare (Mem.len x)) Condition.zero)
        with (Mem.view h x ++ [v] ++ replicate (spare (Mem.len x)) Condition.zero).
      rewrite app_assoc. apply take_app_length'.
      rewrite length_app, (view_length h x Hx). cbn. lia.
    + unfold Mem.view. destruct (decide (Mem.base c = b)) as [E|E].
      * destruct Hc as [Hc1 Hc2]. rewrite E, Hempty in Hc2. cbn in Hc2.
        replace (Mem.len c) with 0%nat by lia. reflexivity.
      * now rewrite array_insert_ne by congruence.
    + split; cbn [Mem.len Mem.off Mem.base Mem.cap]; [lia|].
      rewrite array_insert_eq, length_app, (view_length h x Hx). cbn.
      rewrite length_replicate. lia.
    + destruct Hc as [Hc1 Hc2]. split; [assumption|].
      destruct (decide (Mem.base c = b)) as [E|E].
      * rewrite E, Hempty in Hc2. cbn in Hc2. lia.
      * now rewrite array_insert_ne by congruence.
    + destruct (decide (Mem.base c = b)) as [E|E].
      * right. left. destruct Hc as [Hc1 Hc2]. rewrite E, Hempty in Hc2.
        cbn in Hc2. cbn [Mem.off]. lia.
      * left. exact E.
Qed.

(** ** The loops *)

Lemma Mem_inner_run (x c : Mem.slice) (new : Condition.t)
  (rest : list Condition.t) :
  forall (pre : list Condition.t) (h : store) (b : bool),
    Mem.valid h x -> Mem.valid h c -> Mem.apart c x ->
    Mem.view h x = pre ++ rest ->
    exists h',
      Mem.SetConditions_inner x new (seq (length pre) (length rest)) b h
      = Some (b || has_type (Condition.Type_ new) rest, h') /\
      Mem.view h' x = pre ++ map (merge new) rest /\
      Mem.view h' c = Mem.view h c /\
      Mem.valid h' x /\ Mem.valid h' c.
Proof.
  induction rest as [|e rest IH]; intros pre h b Hx Hc Hapart Hview.
  - exists h. cbn. rewrite orb_false_r. auto.
  - cbn [length seq Mem.SetConditions_inner].
    assert (He : Mem.view h x !! length pre = Some e)
      by (rewrite Hview; now apply list_lookup_middle).
    rewrite (bind_Some _ _ _ _ _ (get_run _ _ _ _ He)).
    assert (Hnext : forall h1 e1,
      Mem.valid h1 x -> Mem.valid h1 c ->
      Mem.view h1 x = pre ++ e1 :: rest -> Mem.view h1 c = Mem.view h c ->
      forall b1,
      exists h',
        Mem.SetConditions_inner x new (seq (S (length pre)) (length rest)) b1 h1
        = Some (b1 || has_type (Condition.Type_ new) rest, h') /\
        Mem.view h' x = pre ++ e1 :: map (merge new) rest /\
        Mem.view h' c = Mem.view h c /\ Mem.valid h' x /\ Mem.valid h' c).
    { intros h1 e1 Hx1 Hc1 Hv1 Hvc b1.
      destruct (IH (pre ++ [e1]) h1 b1 Hx1 Hc1 Hapart) as (h' & Hr & Hv & Hvc' & Hx' & Hc').
      - now rewrite <- app_assoc.
      - exists h'. rewrite length_app in Hr. cbn [length] in Hr.
        rewrite Nat.add_1_r in Hr. rewrite <- app_assoc in Hv.
        split; [exact Hr|]. split; [exact Hv|].
        split; [congruence|]. split; assumption. }
    cbn [map has_type existsb]. fold (has_type (Condition.Type_ new) rest).
    unfold merge.
    destruct (Condition.Type_ e =? Condition.Type_ new)%string; cbn [negb andb orb].
    + destruct (Condition.Equal e new); cbn [negb].
      * destruct (Hnext h e Hx Hc Hview eq_refl true) as (h' & Hr & Hrest).
        exists h'. rewrite Hr. now rewrite !orb_true_r.
      * destruct (set_run h x (length pre) e new Hx He)
          as (h1 & Hset & Hv1 & Hframe & Hvalid).
        rewrite (bind_Some _ _ _ _ _ Hset).
        assert (Hv1' : Mem.view h1 x = pre ++ new :: rest).
        { rewrite Hv1, Hview.
          replace (length pre) with (length pre + 0)%nat by lia.
          now rewrite insert_app_r. }
        destruct (Hnext h1 new (Hvalid _ Hx) (Hvalid _ Hc) Hv1' (Hframe _ Hapart) true)
          as (h' & Hr & Hrest).
        exists h'. rewrite Hr. now rewrite !orb_true_r.
    + destruct (Hnext h e Hx Hc Hview eq_refl b) as (h' & Hr & Hrest).
      exists h'. rewrite Hr, ?orb_false_l. auto.
Qed.

Lemma Mem_outer_run (spare : nat -> nat) (h : store) (x c : Mem.slice)
  (new : Condition.t) :
  Mem.valid h x -> Mem.valid h c -> Mem.apart c x ->
  exists (x' : Mem.slice) (h' : store),
    Mem.SetConditions_outer spare x new h = Some (x', h') /\
    Mem.view h' x' = Conditions (SetConditions_outer (mk (Mem.view h x)) new) /\
    Mem.view h' c = Mem.view h c /\
    Mem.valid h' x' /\ Mem.valid h' c /\ Mem.apart c x'.
Proof.
  intros Hx Hc Hapart. unfold Mem.SetConditions_outer.
  destruct (Mem_inner_run x c new (Mem.view h x) [] h false Hx Hc Hapart eq_refl)
    as (h1 & Hr & Hv & Hvc & Hx1 & Hc1).
  cbn [length app orb] in Hr, Hv. rewrite (view_length h x Hx) in Hr.
  rewrite (bind_Some _ _ _ _ _ Hr), SetConditions_outer_eq. cbn [Conditions].
  destruct (has_type (Condition.Type_ new) (Mem.view h x)).
  - exists x, h1. rewrite app_nil_r. split_and!; auto.
  - destruct (append_run spare h1 x c new Hx1 Hc1 Hapart)
      as (x' & h' & Happ & Hv' & Hvc' & Hx' & Hc' & Hap').
    exists x', h'. rewrite Happ, Hv', Hv. split_and!; auto; congruence.
Qed.

Lemma Mem_range_run (spare : nat -> nat) (c : Mem.slice)
  (rest : list Condition.t) :
  forall (pre : list Condition.t) (h : store) (x : Mem.slice),
    Mem.valid h x -> Mem.valid h c -> Mem.apart c x ->
    Mem.view h c = pre ++ rest ->
    exists (x' : Mem.slice) (h' : store),
      Mem.SetConditions_range spare x c (seq (length pre) (length rest)) h
      = Some (x', h') /\
      Mem.view h' x' = Conditions (SetConditions (mk (Mem.view h x)) rest) /\
      Mem.view h' c = Mem.view h c /\
      Mem.valid h' x' /\ Mem.valid h' c /\ Mem.apart c x'.
Proof.
  induction rest as [|new rest IH]; intros pre h x Hx Hc Hapart Hview.
  - exists x, h. cbn [length seq Mem.SetConditions_range]. split_and!; auto.
  - cbn [length seq Mem.SetConditions_range].
    assert (Hnew : Mem.view h c !! length pre = Some new)
      by (rewrite Hview; now apply list_lookup_middle).
    rewrite (bind_Some _ _ _ _ _ (get_run _ _ _ _ Hnew)).
    destruct (Mem_outer_run spare h x c new Hx Hc Hapart)
      as (x1 & h1 & Hr1 & Hv1 & Hvc1 & Hx1 & Hc1 & Hap1).
    rewrite (bind_Some _ _ _ _ _ Hr1).
    destruct (IH (pre ++ [new]) h1 x1 Hx1 Hc1 Hap1)
      as (x' & h' & Hr & Hv & Hvc & Hx' & Hc' & Hap').
    { rewrite Hvc1, Hview, <- app_assoc. reflexivity. }
    exists x', h'. rewrite length_app in Hr. cbn [length] in Hr.
    rewrite Nat.add_1_r in Hr. rewrite Hr, Hv, Hv1, SetConditions_cons.
    split_and!; auto; [|congruence].
    f_equal. f_equal. now apply status_eq.
Qed.

(** The call in memory, on an argument that is apart from the receiver's
    slice, returns, leaves in the receiver what
    [ConditionedStatus.SetConditions] computes from the elements of the two
    slices, and leaves the argument as it was and apart from the receiver's
    new slice. *)
Lemma Mem_SetConditions_run (spare : nat -> nat) (h : store) (s c : Mem.slice) :
  Mem.valid h s -> Mem.valid h c -> Mem.apart c s ->
  exists (s1 : Mem.slice) (h1 : store),
    Mem.SetConditions spare s c h = Some (s1, h1) /\
    Mem.view h1 s1
    = Conditions (SetConditions (mk (Mem.view h s)) (Mem.view h c)) /\
    Mem.view h1 c = Mem.view h c /\
    Mem.valid h1 s1 /\ Mem.valid h1 c /\ Mem.apart c s1.
Proof.
  intros Hs Hc Hapart. unfold Mem.SetConditions.
  rewrite <- (view_length h c Hc).
  exact (Mem_range_run spare c (Mem.view h c) [] h s Hs Hc Hapart eq_refl).
Qed.

Lemma Mem_nil_valid (h : store) : Mem.valid h Mem.nil.
Proof. split; cbn; lia. Qed.

Lemma Mem_nil_apart (c : Mem.slice) : Mem.apart c Mem.nil.
Proof. right. right. cbn. lia. Qed.

Lemma Mem_nil_view (h : store) : Mem.view h Mem.nil = [].
Proof. reflexivity. Qed.

Lemma SetConditions_result_run (spare : nat -> nat) (h h1 : store)
  (s c s1 : Mem.slice) :
  Mem.SetConditions spare s c h = Some (s1, h1) ->
  SetConditions_result spare s c h = Some (Mem.view h1 s1).
Proof. intros H. unfold SetConditions_result. now rewrite H. Qed.

Lemma mk_Conditions (s : t) : mk (Conditions s) = s.
Proof. now destruct s. Qed.

(** ** One call, several conditions of one type *)

(** C5: a call [s.SetConditions(c...)] whose argument slice has no cell in
    the capacity window of [s.Conditions] returns, and it applies the
    conditions of [c] one at a time from left to right. For the last
    condition [c0] of its type in [c], every entry of that type in the
    status after the call is [Equal] to [c0], and it is [c0] itself unless
    the entry that the earlier conditions left in place was already [Equal]
    to [c0], which then stays with its own transition time. The call
    leaves the argument as it was, and the same call made again returns and
    leaves the conditions that the first call left. *)
Theorem SetConditions_call_in_order_last_wins_idempotent
  (spare : nat -> nat) (h : store) (s c : Mem.slice) :
  Mem.valid h s -> Mem.valid h c -> Mem.apart c s ->
  exists (s1 : Mem.slice) (h1 : store),
    Mem.SetConditions spare s c h = Some (s1, h1) /\
    Mem.view h1 s1
    = Conditions (fold_left SetConditions_outer (Mem.view h c)
                            (mk (Mem.view h s))) /\
    (forall (pre : list Condition.t) (c0 : Condition.t)
            (post : list Condition.t),
       Mem.view h c = pre ++ c0 :: post ->
       (forall d, In d post -> Condition.Type_ d <> Condition.Type_ c0) ->
       (forall e, In e (Mem.view h1 s1) ->
          Condition.Type_ e = Condition.Type_ c0 ->
          Condition.Equal e c0 = true) /\
       (forall i e,
          Conditions (fold_left SetConditions_outer pre (mk (Mem.view h s)))
            !! i = Some e ->
          Condition.Type_ e = Condition.Type_ c0 ->
          Mem.view h1 s1 !! i = Some (if Condition.Equal e c0 then e else c0)) /\
       ((forall e,
           In e (Conditions (fold_left SetConditions_outer pre
                                       (mk (Mem.view h s)))) ->
           Condition.Type_ e <> Condition.Type_ c0) ->
        Mem.view h1 s1
          !! length (Conditions (fold_left SetConditions_outer pre
                                           (mk (Mem.view h s))))
        = Some c0)) /\
    Mem.view h1 c = Mem.view h c /\
    exists (s2 : Mem.slice) (h2 : store),
      Mem.SetConditions spare s1 c h1 = Some (s2, h2) /\
      Mem.view h2 s2 = Mem.view h1 s1.
Proof.
  intros Hs Hc Hapart.
  destruct (Mem_SetConditions_run spare h s c Hs Hc Hapart)
    as (s1 & h1 & Hrun & Hv & Hvc & Hs1 & Hc1 & Hap1).
  exists s1, h1. split; [exact Hrun|]. split; [exact Hv|].
  split; [|split; [exact Hvc|]].
  - intros pre c0 post Hsplit Hpost.
    destruct (values_in_order_last_wins (mk (Mem.view h s)))
      as (_ & Hlast & _).
    specialize (Hlast pre c0 post Hpost).
    rewrite Hv, Hsplit. exact Hlast.
  - destruct (Mem_SetConditions_run spare h1 s1 c Hs1 Hc1 Hap1)
      as (s2 & h2 & Hrun2 & Hv2 & _).
    exists s2, h2. split; [exact Hrun2|].
    rewrite Hv2, Hvc, Hv, mk_Conditions.
    destruct (values_in_order_last_wins (mk (Mem.view h s)))
      as (_ & _ & Htwice).
    now rewrite Htwice.
Qed.

(** Creating, then Available, both of type Ready, set in a status that holds
    them in the other order, in an array of its own: Available, the last of
    its type, is what both entries become. *)
Lemma SetConditions_call_in_order_last_wins_idempotent_witness :
  SetConditions_result no_spare (Mem.Slice 2 0 2 2) (Mem.Slice 1 0 2 2)
    sample_store_repeated
  = Some [sample_available; sample_available].
Proof.
  destruct (SetConditions_call_in_order_last_wins_idempotent no_spare
              sample_store_repeated (Mem.Slice 2 0 2 2) (Mem.Slice 1 0 2 2))
    as (s1 & h1 & Hrun & Hv & _).
  - split; vm_compute; lia.
  - split; vm_compute; lia.
  - left. cbn. lia.
  - rewrite (SetConditions_result_run _ _ _ _ _ _ Hrun), Hv. reflexivity.
Defined.

(** C5, as the claim states it, fails on a call whose argument slice shares
    cells with the slice of the receiver. In [sample_store_repeated] the
    status at array 1 holds Creating and Available, both of type Ready, and
    the call [s.SetConditions(s.Conditions...)] reads Creating, writes it
    over the Available at index 1, and then reads index 1 of its argument,
    the cell it has just written: the status holds Creating twice, though
    the last condition of type Ready in the argument list of the call was
    Available, which is not [Equal] to Creating. In [sample_store] the empty
    status whose slice starts at index 1 of array 1, with room for one
    element, is given the two conditions of that array: the first is
    appended over the second before the second is read, and the status holds
    no condition of the second's type. *)
Lemma SetConditions_call_on_shared_cells :
  Mem.valid sample_store_repeated (Mem.Slice 1 0 2 2) /\
  Mem.view sample_store_repeated (Mem.Slice 1 0 2 2)
  = [] ++ sample_creating :: [sample_available] /\
  Condition.Type_ sample_available = Condition.Type_ sample_creating /\
  Condition.Equal sample_creating sample_available = false /\
  SetConditions_result no_spare (Mem.Slice 1 0 2 2) (Mem.Slice 1 0 2 2)
    sample_store_repeated
  = Some [sample_creating; sample_creating] /\
  ~ (forall r, SetConditions_result no_spare (Mem.Slice 1 0 2 2)
                 (Mem.Slice 1 0 2 2) sample_store_repeated = Some r ->
       forall e, In e r ->
         Condition.Type_ e = Condition.Type_ sample_available ->
         Condition.Equal e sample_available = true) /\
  Mem.valid sample_store (Mem.Slice 1 1 0 1) /\
  Mem.valid sample_store (Mem.Slice 1 0 2 2) /\
  Mem.view sample_store (Mem.Slice 1 1 0 1) = [] /\
  Mem.view sample_store (Mem.Slice 1 0 2 2)
  = [sample_available; sample_synced] /\
  SetConditions_result no_spare (Mem.Slice 1 1 0 1) (Mem.Slice 1 0 2 2)
    sample_store
  = Some [sample_available] /\
  Conditions (fold_left SetConditions_outer [sample_available; sample_synced]
                        (mk []))
  = [sample_available; sample_synced].
Proof.
  assert (Hrun : SetConditions_result no_spare (Mem.Slice 1 0 2 2)
                   (Mem.Slice 1 0 2 2) sample_store_repeated
                 = Some [sample_creating; sample_creating])
    by (vm_compute; reflexivity).
  split_and!; try exact Hrun; try (vm_compute; reflexivity);
    try (split; vm_compute; lia).
  intros H.
  specialize (H _ Hrun sample_creating (or_introl eq_refl) eq_refl).
  discriminate.
Qed.

(** * Further properties of the package *)

(** ** Reading: [GetCondition] *)

Lemma GetCondition_range_Some (cs : list Condition.t) (ct : ConditionType)
  (c : Condition.t) :
  GetCondition_range cs ct = Some c -> In c cs /\ Condition.Type_ c = ct.
Proof.
  induction cs as [|d cs IH]; cbn [GetCondition_range]; [discriminate|].
  destruct (Condition.Type_ d =? ct)%string eqn:Hd.
  - intros [= <-]. split; [now left | now apply string_eqb_true].
  - intros H. destruct (IH H) as [Hin HT]. split; [now right | assumption].
Qed.

Lemma GetCondition_range_None (cs : list Condition.t) (ct : ConditionType) :
  GetCondition_range cs ct = None <-> has_type ct cs = false.
Proof.
  induction cs as [|d cs IH]; cbn [GetCondition_range has_type existsb].
  - tauto.
  - fold (has_type ct cs).
    destruct (Condition.Type_ d =? ct)%string; cbn [orb]; [|exact IH].
    split; discriminate.
Qed.

Lemma GetCondition_range_app (l1 l2 : list Condition.t) (ct : ConditionType) :
  GetCondition_range (l1 ++ l2) ct
  = match GetCondition_range l1 ct with
    | Some c => Some c
    | None => GetCondition_range l2 ct
    end.
Proof.
  induction l1 as [|d l1 IH]; cbn [app GetCondition_range]; [reflexivity|].
  now destruct (Condition.Type_ d =? ct)%string.
Qed.

Lemma GetCondition_range_map (f : Condition.t -> Condition.t)
  (cs : list Condition.t) (ct : ConditionType) :
  (forall e, Condition.Type_ (f e) = Condition.Type_ e) ->
  GetCondition_range (map f cs) ct = option_map f (GetCondition_range cs ct).
Proof.
  intros Hf. induction cs as [|d cs IH]; cbn [map GetCondition_range];
    [reflexivity|].
  rewrite Hf. now destruct (Condition.Type_ d =? ct)%string.
Qed.

(** X1: whatever the status holds, the condition [GetCondition(ct)] returns
    has the type [ct]; it is a condition of the status exactly when the
    status holds the type, and the Unknown condition otherwise; so a result
    that [IsEmpty] is true of is a stored condition, never the sign of an
    absent type. *)
Theorem GetCondition_has_the_type_asked (s : t) (ct : ConditionType) :
  Condition.Type_ (GetCondition s ct) = ct /\
  (In (GetCondition s ct) (Conditions s) <->
   has_type ct (Conditions s) = true) /\
  (has_type ct (Conditions s) = false ->
   GetCondition s ct = Condition.mk ct ConditionUnknown 0 Time_zero "" "") /\
  (Condition.IsEmpty (GetCondition s ct) = true ->
   In (GetCondition s ct) (Conditions s)).
Proof.
  unfold GetCondition.
  destruct (GetCondition_range (Conditions s) ct) as [c|] eqn:Hr.
  - destruct (GetCondition_range_Some _ _ _ Hr) as [Hin HT].
    assert (Hh : has_type ct (Conditions s) = true)
      by (apply has_type_true; eauto).
    repeat split; auto. congruence.
  - apply GetCondition_range_None in Hr.
    split; [reflexivity|]. split; [|split].
    + split; [|congruence]. intros Hin.
      apply has_type_true. eexists. split; [exact Hin|reflexivity].
    + reflexivity.
    + unfold Condition.IsEmpty. cbn. rewrite andb_false_r. discriminate.
Qed.

(** ** Writing and reading back *)

Lemma GetCondition_range_outer_other (s : t) (c : Condition.t)
  (ct : ConditionType) :
  Condition.Type_ c <> ct ->
  GetCondition_range (Conditions (SetConditions_outer s c)) ct
  = GetCondition_range (Conditions s) ct.
Proof.
  intros Hc. rewrite SetConditions_outer_eq, GetCondition_range_app.
  rewrite (GetCondition_range_map (merge c)) by apply merge_Type.
  destruct (GetCondition_range (Conditions s) ct) as [e|] eqn:He; cbn.
  - destruct (GetCondition_range_Some _ _ _ He) as [_ HT].
    rewrite merge_other_type; [reflexivity|congruence].
  - destruct (has_type _ _); [reflexivity|].
    cbn [GetCondition_range]. apply string_eqb_false in Hc. now rewrite Hc.
Qed.

Lemma GetCondition_range_SetConditions_other (cs : list Condition.t) (s : t)
  (ct : ConditionType) :
  (forall c, In c cs -> Condition.Type_ c <> ct) ->
  GetCondition_range (Conditions (SetConditions s cs)) ct
  = GetCondition_range (Conditions s) ct.
Proof.
  revert s. induction cs as [|c cs IH]; intros s H; [reflexivity|].
  rewrite SetConditions_cons, IH by (intros d Hd; apply H; now right).
  apply GetCondition_range_outer_other. apply H. now left.
Qed.

Lemma SetConditions_entries_Equal_last (s : t) (pre post : list Condition.t)
  (c e : Condition.t) :
  (forall d, In d post -> Condition.Type_ d <> Condition.Type_ c) ->
  In e (Conditions (SetConditions s (pre ++ c :: post))) ->
  Condition.Type_ e = Condition.Type_ c -> Condition.Equal e c = true.
Proof.
  intros Hpost. rewrite SetConditions_app, SetConditions_cons. revert e.
  apply SetConditions_other_types_entries; [assumption|].
  apply SetConditions_outer_entries_Equal.
Qed.

(** On the values of an argument list, [GetCondition] reads back what
    [SetConditions] wrote: the condition read for the type of the last
    condition [c] of that type in the list is [Equal] to [c]. After [c]
    alone it is [c] itself when the status held no condition of that type,
    and otherwise the condition that was read before if that one is [Equal]
    to [c], and [c] if not. The condition read for a type that no condition
    of the list has is the one that was read before. *)
Lemma GetCondition_of_values_set (s : t) :
  (forall (pre : list Condition.t) (c : Condition.t) (post : list Condition.t),
     (forall d, In d post -> Condition.Type_ d <> Condition.Type_ c) ->
     Condition.Equal
       (GetCondition (SetConditions s (pre ++ c :: post)) (Condition.Type_ c)) c
     = true) /\
  (forall c : Condition.t,
     has_type (Condition.Type_ c) (Conditions s) = false ->
     GetCondition (SetConditions s [c]) (Condition.Type_ c) = c) /\
  (forall c : Condition.t,
     has_type (Condition.Type_ c) (Conditions s) = true ->
     GetCondition (SetConditions s [c]) (Condition.Type_ c)
     = if Condition.Equal (GetCondition s (Condition.Type_ c)) c
       then GetCondition s (Condition.Type_ c) else c) /\
  (forall (cs : list Condition.t) (ct : ConditionType),
     (forall c, In c cs -> Condition.Type_ c <> ct) ->
     GetCondition (SetConditions s cs) ct = GetCondition s ct).
Proof.
  split; [|split; [|split]].
  - intros pre c post Hpost. unfold GetCondition.
    destruct (GetCondition_range _ _) as [e|] eqn:He.
    + destruct (GetCondition_range_Some _ _ _ He) as [Hin HT].
      now apply (SetConditions_entries_Equal_last s pre post).
    + apply GetCondition_range_None in He.
      rewrite SetConditions_has_types in He; [discriminate|].
      apply in_or_app. right. now left.
  - intros c Hc. unfold GetCondition.
    rewrite SetConditions_cons, SetConditions_nil.
    rewrite SetConditions_outer_absent by assumption.
    rewrite GetCondition_range_first; [reflexivity|].
    now apply has_type_false.
  - intros c Hc. unfold GetCondition.
    rewrite SetConditions_cons, SetConditions_nil.
    rewrite SetConditions_outer_present by assumption.
    rewrite (GetCondition_range_map (merge c)) by apply merge_Type.
    destruct (GetCondition_range (Conditions s) (Condition.Type_ c))
      as [e|] eqn:He.
    + destruct (GetCondition_range_Some _ _ _ He) as [_ HT]. cbn [option_map].
      destruct (Condition.Equal e c) eqn:HE.
      * now apply merge_Equal.
      * now apply merge_replace.
    + apply GetCondition_range_None in He. congruence.
  - intros cs ct H. unfold GetCondition.
    now rewrite GetCondition_range_SetConditions_other.
Qed.

(** X2: what a call [s.SetConditions(c...)] writes, [GetCondition] reads
    back, when the argument slice has no cell in the capacity window of
    [s.Conditions]: the call returns, and the condition read for the type
    of the last supplied condition [c0] of that type is [Equal] to [c0].
    After a call with [c0] alone it is [c0] itself when the status held no
    condition of that type, and otherwise the condition that was read
    before if that one is [Equal] to [c0], and [c0] if not. The condition
    read for a type that no supplied condition has is the one that was read
    before the call. *)
Theorem GetCondition_after_SetConditions_call
  (spare : nat -> nat) (h : store) (s c : Mem.slice) :
  Mem.valid h s -> Mem.valid h c -> Mem.apart c s ->
  exists (s1 : Mem.slice) (h1 : store),
    Mem.SetConditions spare s c h = Some (s1, h1) /\
    (forall (pre : list Condition.t) (c0 : Condition.t)
            (post : list Condition.t),
       Mem.view h c = pre ++ c0 :: post ->
       (forall d, In d post -> Condition.Type_ d <> Condition.Type_ c0) ->
       Condition.Equal
         (GetCondition (mk (Mem.view h1 s1)) (Condition.Type_ c0)) c0
       = true) /\
    (forall c0 : Condition.t,
       Mem.view h c = [c0] ->
       has_type (Condition.Type_ c0) (Mem.view h s) = false ->
       GetCondition (mk (Mem.view h1 s1)) (Condition.Type_ c0) = c0) /\
    (forall c0 : Condition.t,
       Mem.view h c = [c0] ->
       has_type (Condition.Type_ c0) (Mem.view h s) = true ->
       GetCondition (mk (Mem.view h1 s1)) (Condition.Type_ c0)
       = if Condition.Equal
              (GetCondition (mk (Mem.view h s)) (Condition.Type_ c0)) c0
         then GetCondition (mk (Mem.view h s)) (Condition.Type_ c0)
         else c0) /\
    (forall ct : ConditionType,
       (forall c0, In c0 (Mem.view h c) -> Condition.Type_ c0 <> ct) ->
       GetCondition (mk (Mem.view h1 s1)) ct
       = GetCondition (mk (Mem.view h s)) ct).
Proof.
  intros Hs Hc Hapart.
  destruct (Mem_SetConditions_run spare h s c Hs Hc Hapart)
    as (s1 & h1 & Hrun & Hv & _).
  destruct (GetCondition_of_values_set (mk (Mem.view h s)))
    as (H1 & H2 & H3 & H4).
  exists s1, h1. rewrite Hv, mk_Conditions.
  split; [exact Hrun|]. split_and!.
  - intros pre c0 post Hsplit Hpost. rewrite Hsplit. now apply H1.
  - intros c0 Hone Habs. rewrite Hone. now apply H2.
  - intros c0 Hone Hpres. rewrite Hone. now apply H3.
  - intros ct Hother. now apply H4.
Qed.

(** Available set in the status that holds Creating and Available: reading
    Ready gives Available. *)
Lemma GetCondition_after_SetConditions_call_witness :
  exists r : list Condition.t,
    SetConditions_result no_spare (Mem.Slice 1 0 2 2) (Mem.Slice 2 0 1 2)
      sample_store_repeated = Some r /\
    Condition.Equal (GetCondition (mk r) TypeReady) sample_available = true.
Proof.
  destruct (GetCondition_after_SetConditions_call no_spare
              sample_store_repeated (Mem.Slice 1 0 2 2) (Mem.Slice 2 0 1 2))
    as (s1 & h1 & Hrun & Hlast & _).
  - split; vm_compute; lia.
  - split; vm_compute; lia.
  - left. cbn. lia.
  - exists (Mem.view h1 s1).
    split; [exact (SetConditions_result_run _ _ _ _ _ _ Hrun)|].
    apply (Hlast [] sample_available []); [reflexivity|].
    intros d [].
Defined.

(** ** What [SetConditions] keeps *)

Lemma merge_cases (new e : Condition.t) : merge new e = e \/ merge new e = new.
Proof. unfold merge. destruct (_ && _); auto. Qed.

Lemma SetConditions_entries_from (cs : list Condition.t) (s : t) (r : Condition.t) :
  In r (Conditions (SetConditions s cs)) -> In r (Conditions s) \/ In r cs.
Proof.
  revert s. induction cs as [|c cs IH]; intros s Hr; [now left|].
  rewrite SetConditions_cons in Hr. destruct (IH _ Hr) as [H|H].
  - rewrite SetConditions_outer_eq in H. apply in_app_or in H.
    destruct H as [H|H].
    + apply in_map_iff in H. destruct H as (e & <- & He).
      destruct (merge_cases c e) as [->| ->]; [now left | right; now left].
    + destruct (has_type _ _); [destruct H|].
      destruct H as [<-|[]]. right. now left.
  - right. now right.
Qed.

Lemma SetConditions_length_le (cs : list Condition.t) (s : t) :
  (length (Conditions (SetConditions s cs))
   <= length (Conditions s) + length cs)%nat.
Proof.
  revert s. induction cs as [|c cs IH]; intros s; cbn [length].
  { rewrite SetConditions_nil. lia. }
  rewrite SetConditions_cons. specialize (IH (SetConditions_outer s c)).
  rewrite SetConditions_outer_eq, length_app, length_map in IH.
  destruct (has_type _ _); cbn [length] in IH; lia.
Qed.

Lemma SetConditions_types (cs : list Condition.t) (s : t) :
  exists added : list ConditionType,
    map Condition.Type_ (Conditions (SetConditions s cs))
    = map Condition.Type_ (Conditions s) ++ added /\
    NoDup added /\
    (forall ct, In ct added <->
                In ct (map Condition.Type_ cs) /\
                ~ In ct (map Condition.Type_ (Conditions s))).
Proof.
  revert s. induction cs as [|c cs IH]; intros s.
  - exists []. rewrite app_nil_r. split; [reflexivity|].
    split; [apply NoDup_nil_2|]. cbn. tauto.
  - destruct (IH (SetConditions_outer s c)) as (added & Heq & Hnd & Hiff).
    rewrite SetConditions_cons, Heq. clear Heq.
    rewrite SetConditions_outer_types in *.
    destruct (has_type (Condition.Type_ c) (Conditions s)) eqn:Hh.
    + rewrite app_nil_r in *. apply has_type_In_map in Hh.
      exists added. split; [reflexivity|]. split; [assumption|].
      intros ct. rewrite Hiff. cbn [map In]. split.
      * tauto.
      * intros [[<-|H] Hn]; [contradiction|tauto].
    + assert (Hc : ~ In (Condition.Type_ c) (map Condition.Type_ (Conditions s)))
        by (rewrite <- has_type_In_map; congruence).
      exists (Condition.Type_ c :: added). split; [now rewrite <- app_assoc|].
      split.
      * apply NoDup_cons. split; [|assumption].
        rewrite list_elem_of_In, Hiff. intros [_ Hn]. apply Hn.
        apply in_or_app. right. now left.
      * intros ct. cbn [map In]. rewrite Hiff, in_app_iff. cbn [In].
        destruct (string_dec (Condition.Type_ c) ct) as [<-|Hne]; tauto.
Qed.

(** On the values of an argument list, [SetConditions] never drops or moves
    a condition: the types of the status afterwards are the types it had,
    position by position, followed by the types that the conditions of the
    list brought, each once; so the list never shrinks, and grows by at
    most the length of the argument list. *)
Lemma values_keep_types_in_place (s : t) (cs : list Condition.t) :
  (exists added : list ConditionType,
     map Condition.Type_ (Conditions (SetConditions s cs))
     = map Condition.Type_ (Conditions s) ++ added /\
     NoDup added /\
     (forall ct, In ct added <->
                 In ct (map Condition.Type_ cs) /\
                 ~ In ct (map Condition.Type_ (Conditions s)))) /\
  (length (Conditions s) <= length (Conditions (SetConditions s cs)))%nat /\
  (length (Conditions (SetConditions s cs))
   <= length (Conditions s) + length cs)%nat.
Proof.
  split; [apply SetConditions_types|]. split; [|apply SetConditions_length_le].
  destruct (SetConditions_types cs s) as (added & Heq & _).
  apply (f_equal (@length _)) in Heq.
  rewrite length_app, !length_map in Heq. lia.
Qed.

(** X3: a call [s.SetConditions(c...)] whose argument slice has no cell in
    the capacity window of [s.Conditions] returns, and never drops or moves
    a condition: the types of the status after the call are the types it
    had, position by position, followed by the types that the supplied
    conditions brought, each once; so the slice never shrinks, and grows by
    at most the number of supplied conditions. *)
Theorem SetConditions_call_keeps_types_in_place
  (spare : nat -> nat) (h : store) (s c : Mem.slice) :
  Mem.valid h s -> Mem.valid h c -> Mem.apart c s ->
  exists (s1 : Mem.slice) (h1 : store),
    Mem.SetConditions spare s c h = Some (s1, h1) /\
    (exists added : list ConditionType,
       map Condition.Type_ (Mem.view h1 s1)
       = map Condition.Type_ (Mem.view h s) ++ added /\
       NoDup added /\
       (forall ct, In ct added <->
                   In ct (map Condition.Type_ (Mem.view h c)) /\
                   ~ In ct (map Condition.Type_ (Mem.view h s)))) /\
    (Mem.len s <= Mem.len s1)%nat /\
    (Mem.len s1 <= Mem.len s + Mem.len c)%nat.
Proof.
  intros Hs Hc Hapart.
  destruct (Mem_SetConditions_run spare h s c Hs Hc Hapart)
    as (s1 & h1 & Hrun & Hv & _ & Hs1 & _).
  destruct (values_keep_types_in_place (mk (Mem.view h s)) (Mem.view h c))
    as (Hadded & Hle & Hge).
  cbn [Conditions] in Hadded, Hle, Hge. rewrite <- Hv in Hadded, Hle, Hge.
  rewrite (view_length h s Hs) in Hle, Hge.
  rewrite (view_length h c Hc) in Hge.
  rewrite (view_length h1 s1 Hs1) in Hle, Hge.
  exists s1, h1. auto.
Qed.

(** Synced and Available set in the status that holds Available and Synced:
    the slice keeps its two entries. *)
Lemma SetConditions_call_keeps_types_in_place_witness :
  exists (s1 : Mem.slice) (h1 : store),
    Mem.SetConditions no_spare (Mem.Slice 1 0 2 2) (Mem.Slice 2 0 2 2)
      sample_store = Some (s1, h1) /\
    (2 <= Mem.len s1 <= 4)%nat.
Proof.
  destruct (SetConditions_call_keeps_types_in_place no_spare
              sample_store (Mem.Slice 1 0 2 2) (Mem.Slice 2 0 2 2))
    as (s1 & h1 & Hrun & _ & Hle & Hge).
  - split; vm_compute; lia.
  - split; vm_compute; lia.
  - left. cbn. lia.
  - exists s1, h1. cbn in Hle, Hge. auto.
Defined.

(** X4: [SetConditions] makes up no condition: every entry of the status
    after the call is an entry the status had, unchanged, or one of the
    supplied conditions. *)
Theorem SetConditions_entries_are_old_or_supplied (s : t)
  (cs : list Condition.t) (r : Condition.t) :
  In r (Conditions (SetConditions s cs)) -> In r (Conditions s) \/ In r cs.
Proof. apply SetConditions_entries_from. Qed.

Lemma SetConditions_entries_are_old_or_supplied_witness :
  In sample_available (Conditions (mk [sample_creating])) \/
  In sample_available [sample_available; sample_synced].
Proof.
  apply (SetConditions_entries_are_old_or_supplied
           (mk [sample_creating]) [sample_available; sample_synced]).
  left. reflexivity.
Defined.

(** ** When [SetConditions] changes nothing, and how little it changes *)

Lemma map_fixed {A} (f : A -> A) (l : list A) :
  map f l = l <-> forall x, In x l -> f x = x.
Proof.
  induction l as [|a l IH]; cbn [map In]; [tauto|]. split.
  - intros [= Ha Hl] x [<-|Hx]; [assumption|]. now apply IH.
  - intros H. f_equal; [apply H; now left|]. apply IH. auto.
Qed.

Lemma SetConditions_outer_noop (s : t) (c : Condition.t) :
  SetConditions_outer s c = s <->
  has_type (Condition.Type_ c) (Conditions s) = true /\
  (forall e, In e (Conditions s) -> Condition.Type_ e = Condition.Type_ c ->
             Condition.Equal e c = true).
Proof.
  split.
  - intros H. apply (f_equal Conditions) in H.
    rewrite SetConditions_outer_eq in H.
    destruct (has_type _ _) eqn:Hh.
    + rewrite app_nil_r in H. split; [reflexivity|].
      intros e He HT. pose proof (proj1 (map_fixed _ _) H e He) as Hm.
      destruct (Condition.Equal e c) eqn:HE; [reflexivity|].
      rewrite (merge_replace _ _ HT HE) in Hm. subst e.
      now rewrite Condition_Equal_refl in HE.
    + apply (f_equal (@length _)) in H.
      rewrite length_app, length_map in H. cbn in H. lia.
  - intros [Hh HE]. apply status_eq.
    rewrite SetConditions_outer_present by assumption.
    apply map_fixed. intros e He.
    destruct (string_dec (Condition.Type_ e) (Condition.Type_ c)) as [HT|HT].
    + apply merge_Equal. auto.
    + now apply merge_other_type.
Qed.

(** X5: [SetConditions] is a no-op when every supplied condition is
    identical, the transition time ignored, to what is already set: the
    status must hold the type of each, and every entry of that type must be
    [Equal] to it. For a single supplied condition this is also the only
    case in which the status stays as it was. *)
Theorem SetConditions_noop_iff_already_set (s : t) :
  (forall cs : list Condition.t,
     (forall c, In c cs ->
        has_type (Condition.Type_ c) (Conditions s) = true /\
        (forall e, In e (Conditions s) ->
           Condition.Type_ e = Condition.Type_ c ->
           Condition.Equal e c = true)) ->
     SetConditions s cs = s) /\
  (forall c : Condition.t,
     SetConditions s [c] = s <->
     has_type (Condition.Type_ c) (Conditions s) = true /\
     (forall e, In e (Conditions s) ->
        Condition.Type_ e = Condition.Type_ c ->
        Condition.Equal e c = true)).
Proof.
  split.
  - induction cs as [|c cs IH]; intros H; [reflexivity|].
    rewrite SetConditions_cons.
    rewrite (proj2 (SetConditions_outer_noop s c)) by (apply H; now left).
    apply IH. intros d Hd. apply H. now right.
  - intros c. rewrite SetConditions_cons, SetConditions_nil.
    apply SetConditions_outer_noop.
Qed.

Lemma SetConditions_noop_iff_already_set_witness :
  SetConditions (mk [sample_available; sample_synced])
                [sample_available_later; sample_synced]
  = mk [sample_available; sample_synced].
Proof.
  apply (proj1 (SetConditions_noop_iff_already_set
                  (mk [sample_available; sample_synced]))).
  intros c [<-|[<-|[]]]; (split; [reflexivity|]);
    intros e [<-|[<-|[]]]; intros HT; try reflexivity; discriminate.
Defined.

(** X6: on a status with at most one condition of each type, one supplied
    condition changes at most one entry: two entries that the call changed
    stand at the same index. *)
Theorem SetConditions_changes_one_entry (s : t) (c : Condition.t)
  (i j : nat) (ei ej : Condition.t) :
  unique_types (Conditions s) ->
  Conditions s !! i = Some ei -> Conditions s !! j = Some ej ->
  Conditions (SetConditions s [c]) !! i <> Some ei ->
  Conditions (SetConditions s [c]) !! j <> Some ej ->
  i = j.
Proof.
  intros Hu Hi Hj Hci Hcj. rewrite SetConditions_cons, SetConditions_nil in *.
  rewrite (SetConditions_outer_lookup _ _ _ _ Hi) in Hci.
  rewrite (SetConditions_outer_lookup _ _ _ _ Hj) in Hcj.
  assert (HTi : Condition.Type_ ei = Condition.Type_ c).
  { destruct (string_dec (Condition.Type_ ei) (Condition.Type_ c)); [assumption|].
    rewrite merge_other_type in Hci by assumption. contradiction. }
  assert (HTj : Condition.Type_ ej = Condition.Type_ c).
  { destruct (string_dec (Condition.Type_ ej) (Condition.Type_ c)); [assumption|].
    rewrite merge_other_type in Hcj by assumption. contradiction. }
  apply (NoDup_lookup _ i j (Condition.Type_ c) Hu).
  - now rewrite lookup_map, Hi, <- HTi.
  - now rewrite lookup_map, Hj, <- HTj.
Qed.

Lemma SetConditions_changes_one_entry_witness : 0%nat = 0%nat.
Proof.
  apply (SetConditions_changes_one_entry (mk [sample_creating; sample_synced])
           sample_available 0%nat 0%nat sample_creating sample_creating).
  - unfold unique_types. cbn [map Conditions]. apply NoDup_cons. split.
    + intros H. apply list_elem_of_In in H. destruct H as [H|[]]. discriminate.
    + apply NoDup_singleton.
  - reflexivity.
  - reflexivity.
  - discriminate.
  - discriminate.
Defined.

(** ** Supplied conditions of pairwise different types *)

Lemma has_type_outer_other (s : t) (c : Condition.t) (ct : ConditionType) :
  Condition.Type_ c <> ct ->
  has_type ct (Conditions (SetConditions_outer s c)) = has_type ct (Conditions s).
Proof.
  intros Hc. apply eq_true_iff_eq.
  rewrite !has_type_In_map, SetConditions_outer_types, in_app_iff.
  destruct (has_type (Condition.Type_ c) (Conditions s)); cbn [In]; tauto.
Qed.

Lemma NoDup_types_cons (c : Condition.t) (cs : list Condition.t) :
  NoDup (map Condition.Type_ (c :: cs)) ->
  (forall d, In d cs -> Condition.Type_ d <> Condition.Type_ c) /\
  NoDup (map Condition.Type_ cs).
Proof.
  cbn [map]. intros H. apply NoDup_cons in H. destruct H as [Hc Hnd].
  split; [|assumption]. intros d Hd HT. apply Hc.
  rewrite <- HT. apply list_elem_of_In. now apply in_map.
Qed.

(** With supplied conditions of pairwise different types, every held entry
    meets the one supplied condition of its type, and the supplied
    conditions of new types are appended in the order given. *)
Lemma SetConditions_distinct_types (cs : list Condition.t) (s : t) :
  NoDup (map Condition.Type_ cs) ->
  Conditions (SetConditions s cs)
  = map (merge_all cs) (Conditions s)
    ++ List.filter
         (fun c => negb (has_type (Condition.Type_ c) (Conditions s))) cs.
Proof.
  revert s. induction cs as [|c cs IH]; intros s Hnd.
  - cbn. now rewrite map_id, app_nil_r.
  - destruct (NoDup_types_cons _ _ Hnd) as [Hc Hnd'].
    rewrite SetConditions_cons, (IH _ Hnd').
    rewrite (filter_ext_in
               (fun d => negb (has_type (Condition.Type_ d)
                                 (Conditions (SetConditions_outer s c))))
               (fun d => negb (has_type (Condition.Type_ d) (Conditions s))))
      by (intros d Hd; f_equal; apply has_type_outer_other;
          intros E; now apply (Hc d Hd)).
    rewrite SetConditions_outer_eq, map_app, map_map.
    cbn [List.filter merge_all fold_left].
    rewrite <- app_assoc. f_equal.
    destruct (has_type (Condition.Type_ c) (Conditions s)); cbn [negb map app];
      [reflexivity|].
    f_equal. apply merge_all_absent. exact Hc.
Qed.

Lemma merge_swap (x y e : Condition.t) :
  Condition.Type_ x <> Condition.Type_ y ->
  merge x (merge y e) = merge y (merge x e).
Proof.
  intros Hxy.
  destruct (string_dec (Condition.Type_ e) (Condition.Type_ x)) as [Hx|Hx].
  - rewrite (merge_other_type y e) by congruence.
    symmetry. apply merge_other_type. rewrite merge_Type. congruence.
  - rewrite (merge_other_type x e) by assumption.
    apply merge_other_type. now rewrite merge_Type.
Qed.

Lemma merge_all_Permutation (cs cs' : list Condition.t) :
  Permutation cs cs' -> NoDup (map Condition.Type_ cs) ->
  forall e, merge_all cs e = merge_all cs' e.
Proof.
  induction 1 as [|x l l' Hp IH|x y l|l l' l'' Hp1 IH1 Hp2 IH2]; intros Hnd e.
  - reflexivity.
  - cbn [merge_all fold_left]. apply IH.
    now destruct (NoDup_types_cons _ _ Hnd).
  - cbn [merge_all fold_left]. f_equal. apply merge_swap.
    destruct (NoDup_types_cons _ _ Hnd) as [Hy _].
    intros E. apply (Hy x); [now left | congruence].
  - rewrite IH1 by assumption. apply IH2.
    now rewrite <- (Permutation_map Condition.Type_ Hp1).
Qed.

Lemma filter_Permutation_bool {A} (p : A -> bool) (l l' : list A) :
  Permutation l l' -> Permutation (List.filter p l) (List.filter p l').
Proof.
  induction 1 as [|x l l' Hp IH|x y l|l l' l'' Hp1 IH1 Hp2 IH2];
    cbn [List.filter].
  - reflexivity.
  - destruct (p x); [now apply perm_skip | assumption].
  - destruct (p x), (p y); try reflexivity. apply perm_swap.
  - now rewrite IH1.
Qed.

(** On the values of an argument list: conditions of pairwise different
    types that the status does not hold are appended as they are and in the
    order given; so [NewConditionedStatus] of such conditions holds exactly
    the list it was given. *)
Lemma values_appended_in_order (cs : list Condition.t) :
  NoDup (map Condition.Type_ cs) ->
  (forall s : t,
     (forall c, In c cs -> has_type (Condition.Type_ c) (Conditions s) = false) ->
     Conditions (SetConditions s cs) = Conditions s ++ cs) /\
  Conditions (NewConditionedStatus cs) = cs.
Proof.
  intros Hnd.
  assert (Hgen : forall s : t,
    (forall c, In c cs -> has_type (Condition.Type_ c) (Conditions s) = false) ->
    Conditions (SetConditions s cs) = Conditions s ++ cs).
  { intros s Habs. rewrite (SetConditions_distinct_types cs s Hnd). f_equal.
    - apply map_fixed. intros e He. apply merge_all_absent.
      intros d Hd HT. specialize (Habs d Hd).
      apply (proj1 (has_type_false _ _) Habs e He). now symmetry.
    - rewrite <- (filter_ext_in (fun _ => true)) by
        (intros c Hc; now rewrite (Habs c Hc)).
      clear. induction cs as [|c cs IH]; cbn; [reflexivity | now rewrite IH]. }
  split; [exact Hgen|].
  unfold NewConditionedStatus. now rewrite Hgen.
Qed.

(** X7: conditions of pairwise different types that the status does not
    hold are appended as they are and in the order given, by a call
    [s.SetConditions(c...)] whose argument slice has no cell in the
    capacity window of [s.Conditions]; and [NewConditionedStatus(c...)] of
    conditions of pairwise different types returns a status that holds
    exactly the conditions it was given, in any memory. *)
Theorem SetConditions_call_appends_new_types_in_order
  (spare : nat -> nat) (h : store) (c : Mem.slice) :
  Mem.valid h c ->
  NoDup (map Condition.Type_ (Mem.view h c)) ->
  (forall s : Mem.slice,
     Mem.valid h s -> Mem.apart c s ->
     (forall c0, In c0 (Mem.view h c) ->
        has_type (Condition.Type_ c0) (Mem.view h s) = false) ->
     exists (s1 : Mem.slice) (h1 : store),
       Mem.SetConditions spare s c h = Some (s1, h1) /\
       Mem.view h1 s1 = Mem.view h s ++ Mem.view h c /\
       Mem.view h1 c = Mem.view h c) /\
  exists (s1 : Mem.slice) (h1 : store),
    Mem.NewConditionedStatus spare c h = Some (s1, h1) /\
    Mem.view h1 s1 = Mem.view h c /\
    Mem.view h1 c = Mem.view h c.
Proof.
  intros Hc Hnd.
  destruct (values_appended_in_order (Mem.view h c) Hnd) as [Hgen Hnew].
  split.
  - intros s Hs Hapart Habs.
    destruct (Mem_SetConditions_run spare h s c Hs Hc Hapart)
      as (s1 & h1 & Hrun & Hv & Hvc & _).
    exists s1, h1. rewrite Hv.
    split_and!; [exact Hrun | | exact Hvc].
    now apply (Hgen (mk (Mem.view h s))).
  - destruct (Mem_SetConditions_run spare h Mem.nil c
                (Mem_nil_valid h) Hc (Mem_nil_apart c))
      as (s1 & h1 & Hrun & Hv & Hvc & _).
    exists s1, h1. rewrite Hv.
    split_and!; [exact Hrun | exact Hnew | exact Hvc].
Qed.

(** [NewConditionedStatus] of the two conditions of an array of
    [sample_store]. *)
Lemma SetConditions_call_appends_new_types_in_order_witness :
  exists (s1 : Mem.slice) (h1 : store),
    Mem.NewConditionedStatus no_spare (Mem.Slice 1 0 2 2) sample_store
    = Some (s1, h1) /\
    Mem.view h1 s1 = [sample_available; sample_synced].
Proof.
  destruct (SetConditions_call_appends_new_types_in_order no_spare
              sample_store (Mem.Slice 1 0 2 2))
    as (_ & s1 & h1 & Hrun & Hv & _).
  - split; vm_compute; lia.
  - change (Mem.view sample_store (Mem.Slice 1 0 2 2))
      with [sample_available; sample_synced].
    cbn [map]. apply NoDup_cons. split.
    + intros H. apply list_elem_of_In in H. destruct H as [H|[]]. discriminate.
    + apply NoDup_singleton.
  - exists s1, h1. split; [exact Hrun|]. rewrite Hv. reflexivity.
Defined.


(** On the values of an argument list: the order of conditions of pairwise
    different types does not matter for what the status holds: two orders
    leave the same entry at every index the status had, and the same
    conditions after them, up to their order. *)
Lemma values_order_of_distinct_types (s : t) (cs cs' : list Condition.t) :
  NoDup (map Condition.Type_ cs) -> Permutation cs cs' ->
  Permutation (Conditions (SetConditions s cs))
              (Conditions (SetConditions s cs')) /\
  (forall i : nat, (i < length (Conditions s))%nat ->
     Conditions (SetConditions s cs) !! i
     = Conditions (SetConditions s cs') !! i).
Proof.
  intros Hnd Hp.
  assert (Hnd' : NoDup (map Condition.Type_ cs'))
    by now rewrite <- (Permutation_map Condition.Type_ Hp).
  rewrite (SetConditions_distinct_types cs s Hnd).
  rewrite (SetConditions_distinct_types cs' s Hnd').
  assert (Hmap : map (merge_all cs) (Conditions s)
                 = map (merge_all cs') (Conditions s))
    by (apply map_ext; now apply merge_all_Permutation).
  rewrite Hmap. split.
  - apply Permutation_app_head. now apply filter_Permutation_bool.
  - intros i Hi. rewrite !lookup_app_l by now rewrite length_map.
    reflexivity.
Qed.

(** X8: the order of supplied conditions of pairwise different types does
    not matter for what the status holds. Of two calls on one status, with
    argument slices that hold the same conditions in two orders and have no
    cell in the capacity window of [s.Conditions], both return, and they
    leave the same entry at every index the status had, and the same
    conditions after them, up to their order. *)
Theorem SetConditions_call_order_of_distinct_types
  (spare spare' : nat -> nat) (h : store) (s c c' : Mem.slice) :
  Mem.valid h s -> Mem.valid h c -> Mem.valid h c' ->
  Mem.apart c s -> Mem.apart c' s ->
  NoDup (map Condition.Type_ (Mem.view h c)) ->
  Permutation (Mem.view h c) (Mem.view h c') ->
  exists (s1 : Mem.slice) (h1 : store) (s1' : Mem.slice) (h1' : store),
    Mem.SetConditions spare s c h = Some (s1, h1) /\
    Mem.SetConditions spare' s c' h = Some (s1', h1') /\
    Permutation (Mem.view h1 s1) (Mem.view h1' s1') /\
    (forall i : nat, (i < Mem.len s)%nat ->
       Mem.view h1 s1 !! i = Mem.view h1' s1' !! i).
Proof.
  intros Hs Hc Hc' Hapart Hapart' Hnd Hp.
  destruct (Mem_SetConditions_run spare h s c Hs Hc Hapart)
    as (s1 & h1 & Hrun & Hv & _).
  destruct (Mem_SetConditions_run spare' h s c' Hs Hc' Hapart')
    as (s1' & h1' & Hrun' & Hv' & _).
  destruct (values_order_of_distinct_types (mk (Mem.view h s))
              (Mem.view h c) (Mem.view h c') Hnd Hp) as [Hperm Hidx].
  cbn [Conditions] in Hidx. rewrite (view_length h s Hs) in Hidx.
  exists s1, h1, s1', h1'. rewrite Hv, Hv'. auto.
Qed.

(** Creating and Synced, and Synced and Creating, set in an empty
    status. *)
Lemma SetConditions_call_order_of_distinct_types_witness :
  exists r r' : list Condition.t,
    SetConditions_result no_spare Mem.nil (Mem.Slice 1 0 2 2)
      sample_store_orders = Some r /\
    SetConditions_result no_spare Mem.nil (Mem.Slice 2 0 2 2)
      sample_store_orders = Some r' /\
    Permutation r r'.
Proof.
  destruct (SetConditions_call_order_of_distinct_types no_spare no_spare
              sample_store_orders Mem.nil
              (Mem.Slice 1 0 2 2) (Mem.Slice 2 0 2 2))
    as (s1 & h1 & s1' & h1' & Hrun & Hrun' & Hperm & _).
  - apply Mem_nil_valid.
  - split; vm_compute; lia.
  - split; vm_compute; lia.
  - apply Mem_nil_apart.
  - apply Mem_nil_apart.
  - change (Mem.view sample_store_orders (Mem.Slice 1 0 2 2))
      with [sample_creating; sample_synced].
    cbn [map]. apply NoDup_cons. split.
    + intros H. apply list_elem_of_In in H. destruct H as [H|[]]. discriminate.
    + apply NoDup_singleton.
  - change (Permutation [sample_creating; sample_synced]
                        [sample_synced; sample_creating]).
    apply perm_swap.
  - exists (Mem.view h1 s1), (Mem.view h1' s1').
    split; [exact (SetConditions_result_run _ _ _ _ _ _ Hrun)|].
    split; [exact (SetConditions_result_run _ _ _ _ _ _ Hrun')|].
    exact Hperm.
Defined.


(** ** Transition times stay transition times *)

Lemma same_but_times_Types (a a' : list Condition.t) :
  same_but_times a a' -> map Condition.Type_ a = map Condition.Type_ a'.
Proof.
  induction 1 as [|x y a a' Hxy _ IH]; cbn [map]; [reflexivity|].
  now rewrite (Condition_Equal_Type _ _ Hxy), IH.
Qed.

Lemma merge_Equal_compat_both (c c' e e' : Condition.t) :
  Condition.Equal c c' = true -> Condition.Equal e e' = true ->
  Condition.Equal (merge c e) (merge c' e') = true.
Proof.
  intros Hc He.
  pose proof (Condition_Equal_Type _ _ Hc) as HTc.
  pose proof (Condition_Equal_Type _ _ He) as HTe.
  destruct (string_dec (Condition.Type_ e) (Condition.Type_ c)) as [HT|HT].
  - apply Condition_Equal_trans with c; [now apply merge_same_type_Equal|].
    apply Condition_Equal_trans with c'; [assumption|].
    rewrite Condition_Equal_sym. apply merge_same_type_Equal. congruence.
  - rewrite !merge_other_type; congruence.
Qed.

Lemma SetConditions_outer_same_but_times (s s' : t) (c c' : Condition.t) :
  same_but_times (Conditions s) (Conditions s') ->
  Condition.Equal c c' = true ->
  same_but_times (Conditions (SetConditions_outer s c))
                 (Conditions (SetConditions_outer s' c')).
Proof.
  intros Hs Hc. unfold same_but_times. rewrite !SetConditions_outer_eq.
  assert (Hh : has_type (Condition.Type_ c) (Conditions s)
               = has_type (Condition.Type_ c') (Conditions s')).
  { apply eq_true_iff_eq. rewrite !has_type_In_map.
    now rewrite (same_but_times_Types _ _ Hs), (Condition_Equal_Type _ _ Hc). }
  rewrite Hh. apply Forall2_app.
  - clear Hh. induction Hs as [|x y a a' Hxy _ IH]; cbn [map].
    + constructor.
    + constructor; [now apply merge_Equal_compat_both | assumption].
  - destruct (has_type (Condition.Type_ c') (Conditions s')).
    + constructor.
    + constructor; [exact Hc | constructor].
Qed.

(** On the values of an argument list, transition times do not decide what
    [SetConditions] does: on two statuses that differ in transition times
    only, two argument lists that differ in transition times only leave
    statuses that differ in transition times only. *)
Lemma values_same_but_times (s s' : t) (cs cs' : list Condition.t) :
  same_but_times (Conditions s) (Conditions s') ->
  same_but_times cs cs' ->
  same_but_times (Conditions (SetConditions s cs))
                 (Conditions (SetConditions s' cs')).
Proof.
  intros Hs Hcs. revert s s' Hs.
  induction Hcs as [|c c' cs cs' Hc _ IH]; intros s s' Hs; [assumption|].
  rewrite !SetConditions_cons. apply IH.
  now apply SetConditions_outer_same_but_times.
Qed.

(** X9: transition times do not decide what a call [s.SetConditions(c...)]
    does. Of two calls whose argument slices have no cell in the capacity
    window of the receiver's [Conditions], on statuses that differ in
    transition times only and with arguments that differ in transition
    times only, both return and they leave statuses that differ in
    transition times only. *)
Theorem SetConditions_call_same_but_times
  (spare spare' : nat -> nat) (h h' : store) (s c s' c' : Mem.slice) :
  Mem.valid h s -> Mem.valid h c -> Mem.apart c s ->
  Mem.valid h' s' -> Mem.valid h' c' -> Mem.apart c' s' ->
  same_but_times (Mem.view h s) (Mem.view h' s') ->
  same_but_times (Mem.view h c) (Mem.view h' c') ->
  exists (s1 : Mem.slice) (h1 : store) (s1' : Mem.slice) (h1' : store),
    Mem.SetConditions spare s c h = Some (s1, h1) /\
    Mem.SetConditions spare' s' c' h' = Some (s1', h1') /\
    same_but_times (Mem.view h1 s1) (Mem.view h1' s1').
Proof.
  intros Hs Hc Hapart Hs' Hc' Hapart' Hss Hcc.
  destruct (Mem_SetConditions_run spare h s c Hs Hc Hapart)
    as (s1 & h1 & Hrun & Hv & _).
  destruct (Mem_SetConditions_run spare' h' s' c' Hs' Hc' Hapart')
    as (s1' & h1' & Hrun' & Hv' & _).
  exists s1, h1, s1', h1'. rewrite Hv, Hv'. split_and!; auto.
  now apply values_same_but_times.
Qed.

(** Synced set in two statuses that hold Available, read at two instants. *)
Lemma SetConditions_call_same_but_times_witness :
  exists r r' : list Condition.t,
    SetConditions_result no_spare (Mem.Slice 1 0 1 1) (Mem.Slice 2 0 1 1)
      sample_store = Some r /\
    SetConditions_result no_spare (Mem.Slice 2 1 1 1) (Mem.Slice 1 1 1 1)
      sample_store = Some r' /\
    same_but_times r r'.
Proof.
  destruct (SetConditions_call_same_but_times no_spare no_spare
              sample_store sample_store
              (Mem.Slice 1 0 1 1) (Mem.Slice 2 0 1 1)
              (Mem.Slice 2 1 1 1) (Mem.Slice 1 1 1 1))
    as (s1 & h1 & s1' & h1' & Hrun & Hrun' & Hsame).
  - split; vm_compute; lia.
  - split; vm_compute; lia.
  - left. cbn. lia.
  - split; vm_compute; lia.
  - split; vm_compute; lia.
  - left. cbn. lia.
  - change (same_but_times [sample_available] [sample_available_later]).
    repeat constructor.
  - change (same_but_times [sample_synced] [sample_synced]).
    repeat constructor.
  - exists (Mem.view h1 s1), (Mem.view h1' s1').
    split; [exact (SetConditions_result_run _ _ _ _ _ _ Hrun)|].
    split; [exact (SetConditions_result_run _ _ _ _ _ _ Hrun')|].
    exact Hsame.
Defined.


(** ** [ConditionedStatus.Equal] as a relation between statuses *)

Lemma pairwise_Equal_trans (a b c : list Condition.t) :
  pairwise_Equal a b = true -> pairwise_Equal b c = true ->
  pairwise_Equal a c = true.
Proof. rewrite !pairwise_Equal_timeless. congruence. Qed.

Section EqualRelation.
Variable sort_impl :
  (Condition.t -> Condition.t -> bool) -> list Condition.t -> list Condition.t.

(** [sort.Slice] returns the elements it was given. *)
Hypothesis sort_impl_Permutation :
  forall l, Permutation (sort_impl less_Type l) l.

(** X10: [Equal] is transitive, whatever the three statuses hold (repeated
    types included): when [a.Equal(b)] and [b.Equal(c)] are true, so is
    [a.Equal(c)]. *)
Theorem Equal_transitive (h : store) (p q r : loc)
  (a b c : list Condition.t) :
  h !! p = Some a -> h !! q = Some b -> h !! r = Some c ->
  Equal_result sort_impl (Some p) (Some q) h = Some true ->
  Equal_result sort_impl (Some q) (Some r) h = Some true ->
  Equal_result sort_impl (Some p) (Some r) h = Some true.
Proof.
  intros Hp Hq Hr. unfold Equal_result.
  destruct (Equal_run sort_impl sort_impl_Permutation h p q a b Hp Hq)
    as (h1 & -> & _).
  destruct (Equal_run sort_impl sort_impl_Permutation h q r b c Hq Hr)
    as (h2 & -> & _).
  destruct (Equal_run sort_impl sort_impl_Permutation h p r a c Hp Hr)
    as (h3 & -> & _).
  cbn [option_map fst]. intros [= H1] [= H2]. f_equal.
  apply andb_true_iff in H1, H2. destruct H1 as [L1 P1], H2 as [L2 P2].
  apply Nat.eqb_eq in L1, L2. apply andb_true_iff. split.
  - apply Nat.eqb_eq. congruence.
  - now apply pairwise_Equal_trans with (sort_impl less_Type b).
Qed.

(** X11: a call of [Equal] does not change what later calls answer: in the
    store that [a.Equal(b)] leaves, every two statuses that were in the
    store before compare as they did before. *)
Theorem Equal_leaves_later_answers (h : store) (p q : loc)
  (a b : list Condition.t) :
  h !! p = Some a -> h !! q = Some b ->
  exists (res : bool) (h' : store),
    Equal sort_impl (Some p) (Some q) h = Some (res, h') /\
    forall (p' q' : loc) (a' b' : list Condition.t),
      h !! p' = Some a' -> h !! q' = Some b' ->
      Equal_result sort_impl (Some p') (Some q') h'
      = Equal_result sort_impl (Some p') (Some q') h.
Proof.
  intros Hp Hq.
  destruct (Equal_run sort_impl sort_impl_Permutation h p q a b Hp Hq)
    as (h' & Hrun & Hframe).
  eexists _, h'. split; [exact Hrun|].
  intros p' q' a' b' Hp' Hq'. unfold Equal_result.
  destruct (Equal_run sort_impl sort_impl_Permutation h p' q' a' b' Hp' Hq')
    as (h1 & -> & _).
  destruct (Equal_run sort_impl sort_impl_Permutation h' p' q' a' b'
              (Hframe _ _ Hp') (Hframe _ _ Hq'))
    as (h2 & -> & _).
  reflexivity.
Qed.
End EqualRelation.

Lemma Equal_transitive_witness :
  Equal_result (@insertionSort_func Condition.t) (Some 1%nat) (Some 1%nat)
    sample_store = Some true.
Proof.
  apply (Equal_transitive (@insertionSort_func Condition.t)
           (insertionSort_func_Permutation less_Type)
           sample_store 1%nat 2%nat 1%nat
           [sample_available; sample_synced]
           [sample_synced; sample_available_later]
           [sample_available; sample_synced]);
    vm_compute; reflexivity.
Defined.

Lemma Equal_leaves_later_answers_witness :
  exists (res : bool) (h' : store),
    Equal (@insertionSort_func Condition.t) (Some 1%nat) (Some 2%nat)
      sample_store_repeated = Some (res, h') /\
    Equal_result (@insertionSort_func Condition.t) (Some 2%nat) (Some 1%nat) h'
    = Some false.
Proof.
  destruct (Equal_leaves_later_answers (@insertionSort_func Condition.t)
              (insertionSort_func_Permutation less_Type)
              sample_store_repeated 1%nat 2%nat
              [sample_creating; sample_available]
              [sample_available; sample_creating] eq_refl eq_refl)
    as (res & h' & Hrun & Hlater).
  exists res, h'. split; [exact Hrun|].
  rewrite (Hlater 2%nat 1%nat [sample_available; sample_creating]
             [sample_creating; sample_available] eq_refl eq_refl).
  vm_compute. reflexivity.
Defined.

(** ** Conditions and their constructors *)

(** X12: [c.Equal(d)] is true exactly when [d] is [c] with (possibly)
    another [LastTransitionTime]: every other field counts, the
    [ObservedGeneration] included; and [Equal] is an equivalence. *)
Theorem Condition_Equal_up_to_time :
  (forall c d : Condition.t,
     Condition.Equal c d = true <->
     d = with_time c (Condition.LastTransitionTime d)) /\
  (forall (c : Condition.t) (t : Time),
     Condition.Equal c (with_time c t) = true) /\
  (forall c : Condition.t, Condition.Equal c c = true) /\
  (forall c d : Condition.t, Condition.Equal c d = Condition.Equal d c) /\
  (forall c d e : Condition.t,
     Condition.Equal c d = true -> Condition.Equal d e = true ->
     Condition.Equal c e = true).
Proof.
  split; [|split; [|split; [|split]]].
  - intros c d. rewrite Condition_Equal_fields.
    destruct c, d; unfold with_time; cbn. split.
    + intros (-> & -> & -> & -> & ->). reflexivity.
    + intros H. injection H. auto.
  - intros c t. apply Condition_Equal_fields. repeat split.
  - apply Condition_Equal_refl.
  - apply Condition_Equal_sym.
  - apply Condition_Equal_trans.
Qed.

(** X13: [WithMessage] composes as an assignment: the last message wins,
    the message a condition has leaves it as it is, another message gives a
    condition that is not [Equal] to it, and two [Equal] conditions given
    one message stay [Equal]. *)
Theorem WithMessage_composes :
  (forall (c : Condition.t) (m1 m2 : string),
     Condition.WithMessage (Condition.WithMessage c m1) m2
     = Condition.WithMessage c m2) /\
  (forall c : Condition.t,
     Condition.WithMessage c (Condition.Message c) = c) /\
  (forall (c : Condition.t) (m : string),
     Condition.Equal (Condition.WithMessage c m) c = true <->
     m = Condition.Message c) /\
  (forall (c d : Condition.t) (m : string),
     Condition.Equal c d = true ->
     Condition.Equal (Condition.WithMessage c m) (Condition.WithMessage d m)
     = true).
Proof.
  split; [|split; [|split]].
  - reflexivity.
  - now intros [].
  - intros c m. rewrite Condition_Equal_fields. cbn. tauto.
  - intros c d m. rewrite !Condition_Equal_fields. cbn. tauto.
Qed.

Lemma constructors_at_Equal (text : string) (reason : ConditionReason)
  (missingRefs : list ObjectRef.t) (K : Time -> Condition.t) (t1 t2 : Time) :
  In K (constructors_at text reason missingRefs) ->
  Condition.Equal (K t1) (K t2) = true.
Proof.
  intros HK. apply Condition_Equal_fields.
  cbn in HK. repeat (destruct HK as [<-|HK]; [repeat split|]). destruct HK.
Qed.

(** X14: [IsEmpty] looks at the four strings only: a condition [IsEmpty]
    exactly when it is [Equal] to the zero condition but for its
    [ObservedGeneration]; and no constructor returns a condition that
    [IsEmpty], whatever the failure text, the reason and the references. *)
Theorem IsEmpty_only_of_zero_strings :
  (forall c : Condition.t,
     Condition.Equal c Condition.zero = true <->
     Condition.IsEmpty c = true /\ Condition.ObservedGeneration c = 0) /\
  (forall (text : string) (reason : ConditionReason)
          (missingRefs : list ObjectRef.t) (K : Time -> Condition.t) (now : Time),
     In K (constructors_at text reason missingRefs) ->
     Condition.IsEmpty (K now) = false).
Proof.
  split.
  - intros c. rewrite Condition_Equal_fields. unfold Condition.IsEmpty.
    rewrite !andb_true_iff, !string_eqb_true. cbn. tauto.
  - intros text reason refs K now HK.
    cbn in HK. repeat (destruct HK as [<-|HK]; [reflexivity|]). destruct HK.
Qed.

Lemma SetConditions_Equal_again (s : t) (c c2 : Condition.t) :
  Condition.Equal c c2 = true ->
  SetConditions (SetConditions s [c]) [c2] = SetConditions s [c].
Proof.
  intros HE. rewrite !SetConditions_cons, !SetConditions_nil.
  pose proof (Condition_Equal_Type _ _ HE) as HT.
  apply SetConditions_outer_noop. split.
  - rewrite <- HT. apply SetConditions_outer_has_new.
  - intros e He HTe. apply Condition_Equal_trans with c; [|exact HE].
    apply SetConditions_outer_entries_Equal with s; congruence.
Qed.

(** X15: a constructor called again later, with the same arguments, returns
    an [Equal] condition, so setting it again changes nothing and the first
    transition time stays; two different constructors of a Ready condition
    never return [Equal] conditions, nor do [ReconcileSuccess] and
    [ReconcileError], nor [ReferencesValid] and [ReferencesInvalid]. *)
Theorem constructors_differ_by_time_only :
  (forall (text : string) (reason : ConditionReason)
          (missingRefs : list ObjectRef.t) (K : Time -> Condition.t)
          (t1 t2 : Time) (s : t),
     In K (constructors_at text reason missingRefs) ->
     Condition.Equal (K t1) (K t2) = true /\
     SetConditions (SetConditions s [K t1]) [K t2] = SetConditions s [K t1]) /\
  (forall (i j : nat) (K1 K2 : Time -> Condition.t) (t1 t2 : Time),
     Ready_constructors !! i = Some K1 -> Ready_constructors !! j = Some K2 ->
     (Condition.Equal (K1 t1) (K2 t2) = true <-> i = j)) /\
  (forall (t1 t2 : Time) (text : string) (c : Condition.t),
     ReconcileError t2 (error_of text) = Some c ->
     Condition.Equal (ReconcileSuccess t1) c = false) /\
  (forall (t1 t2 : Time) (reason : ConditionReason)
          (missingRefs : list ObjectRef.t),
     Condition.Equal (ReferencesValid t1)
       (ReferencesInvalid t2 reason missingRefs) = false).
Proof.
  split; [|split; [|split]].
  - intros text reason refs K t1 t2 s HK.
    pose proof (constructors_at_Equal text reason refs K t1 t2 HK) as HE.
    split; [exact HE|]. now apply SetConditions_Equal_again.
  - intros i j K1 K2 t1 t2 H1 H2.
    destruct i as [|[|[|[|i]]]]; try discriminate H1;
      destruct j as [|[|[|[|j]]]]; try discriminate H2;
      injection H1 as <-; injection H2 as <-;
      (split; [first [reflexivity | discriminate] | ]);
      first [reflexivity | discriminate].
  - intros t1 t2 text c [= <-]. reflexivity.
  - reflexivity.
Qed.

Lemma constructors_differ_by_time_only_witness :
  SetConditions (SetConditions (mk [sample_creating]) [Available 2])
                [Available 9]
  = SetConditions (mk [sample_creating]) [Available 2].
Proof.
  apply (proj1 constructors_differ_by_time_only "" "" [] Available 2 9).
  right. right. left. reflexivity.
Defined.

(** ** The message of [ReferencesInvalid] *)

Lemma string_append_assoc (a b c : string) :
  ((a ++ b) ++ c)%string = (a ++ (b ++ c))%string.
Proof.
  induction a as [|x a IH]; [reflexivity|].
  change (String x ((a ++ b) ++ c)%string = String x (a ++ (b ++ c))%string).
  now rewrite IH.
Qed.

Lemma strings_Join_rest_app (l1 l2 : list string) (sep : string) :
  strings_Join_rest (l1 ++ l2) sep
  = (strings_Join_rest l1 sep ++ strings_Join_rest l2 sep)%string.
Proof.
  induction l1 as [|x l1 IH]; cbn [app strings_Join_rest]; [reflexivity|].
  now rewrite IH, !string_append_assoc.
Qed.

Lemma strings_Join_snoc (l : list string) (x sep : string) :
  l <> [] ->
  strings_Join (l ++ [x]) sep = (strings_Join l sep ++ sep ++ x)%string.
Proof.
  destruct l as [|y l]; [congruence|]. intros _.
  cbn [app strings_Join]. rewrite strings_Join_rest_app.
  cbn [strings_Join_rest]. rewrite string_append_empty.
  now rewrite string_append_assoc.
Qed.

(** X16: for no reference the message of [ReferencesInvalid] is the bare
    introduction, ending in a space; one more reference at the end of a
    non-empty list adds ", " and its [namespace/name] at the end of the
    message; and the type, status and reason do not depend on the
    references. *)
Theorem ReferencesInvalid_message_grows (now : Time) (r : ConditionReason) :
  Condition.Message (ReferencesInvalid now r [])
  = "Referenced objects are not found: " /\
  (forall (missingRefs : list ObjectRef.t) (ref : ObjectRef.t),
     missingRefs <> [] ->
     Condition.Message (ReferencesInvalid now r (missingRefs ++ [ref]))
     = (Condition.Message (ReferencesInvalid now r missingRefs)
        ++ ", " ++ ObjectRef.Namespace ref ++ "/" ++ ObjectRef.Name ref)%string) /\
  (forall missingRefs : list ObjectRef.t,
     Condition.Equal (ReferencesInvalid now r missingRefs)
       (Condition.WithMessage (ReferencesInvalid now r [])
          (Condition.Message (ReferencesInvalid now r missingRefs)))
     = true).
Proof.
  split; [reflexivity|]. split.
  - intros refs ref Hne. unfold ReferencesInvalid. cbn [Condition.Message].
    rewrite !ReferencesInvalid_range_map, map_app. cbn [map].
    rewrite strings_Join_snoc by (destruct refs; [congruence|discriminate]).
    now rewrite string_append_assoc.
  - intros refs. apply Condition_Equal_fields. repeat split.
Qed.

(** ** The string forms as keys *)

Lemma string_split_first (ch : ascii) (s1 : string) :
  forall s2 r1 r2 : string,
    string_has ch s1 = false -> string_has ch s2 = false ->
    (s1 ++ String ch r1)%string = (s2 ++ String ch r2)%string ->
    s1 = s2 /\ r1 = r2.
Proof.
  induction s1 as [|a s1 IH]; intros [|b s2] r1 r2 H1 H2 E.
  - change (String ch r1 = String ch r2) in E. now injection E.
  - change (String ch r1 = String b (s2 ++ String ch r2)%string) in E.
    injection E as Hb _. cbn [string_has] in H2. subst b.
    now rewrite Ascii.eqb_refl in H2.
  - change (String a (s1 ++ String ch r1)%string = String ch r2) in E.
    injection E as Ha _. cbn [string_has] in H1. subst a.
    now rewrite Ascii.eqb_refl in H1.
  - change (String a (s1 ++ String ch r1)%string
            = String b (s2 ++ String ch r2)%string) in E.
    injection E as Hab E. cbn [string_has] in H1, H2.
    apply orb_false_iff in H1, H2.
    destruct (IH s2 r1 r2 (proj2 H1) (proj2 H2) E) as [-> ->].
    now subst b.
Qed.

Lemma string_append_inj_l (p x y : string) :
  (p ++ x)%string = (p ++ y)%string -> x = y.
Proof.
  induction p as [|a p IH]; intros E; [exact E|].
  change (String a (p ++ x)%string = String a (p ++ y)%string) in E.
  injection E as E. now apply IH.
Qed.

Lemma ClusterObjectRef_String_flat (o : ClusterObjectRef.t) :
  ClusterObjectRef.String o
  = (ClusterObjectRef.ClusterID o
     ++ String "/" (ClusterObjectRef.Namespace o
                    ++ String "/" (ClusterObjectRef.Name o)))%string.
Proof.
  unfold ClusterObjectRef.String, strings_Join, Separator.
  cbn [strings_Join_rest]. now rewrite string_append_empty.
Qed.

(** X17: on references whose [ClusterID] and [Namespace] hold no "/", the
    string form of a [ClusterObjectRef] is a key: two references with the
    same string are the same reference. With a "/" in those fields it is
    not: the two references east/eu, prod, web and east, eu/prod, web have
    one string. *)
Theorem ClusterObjectRef_String_is_a_key :
  (forall o1 o2 : ClusterObjectRef.t,
     string_has "/" (ClusterObjectRef.ClusterID o1) = false ->
     string_has "/" (ClusterObjectRef.Namespace o1) = false ->
     string_has "/" (ClusterObjectRef.ClusterID o2) = false ->
     string_has "/" (ClusterObjectRef.Namespace o2) = false ->
     ClusterObjectRef.String o1 = ClusterObjectRef.String o2 -> o1 = o2) /\
  ClusterObjectRef.String (ClusterObjectRef.mk "web" "prod" "east/eu")
  = ClusterObjectRef.String (ClusterObjectRef.mk "web" "eu/prod" "east").
Proof.
  split; [|reflexivity].
  intros [n1 ns1 c1] [n2 ns2 c2]; cbn [ClusterObjectRef.ClusterID
    ClusterObjectRef.Namespace]. intros Hc1 Hn1 Hc2 Hn2 E.
  rewrite !ClusterObjectRef_String_flat in E.
  cbn [ClusterObjectRef.ClusterID ClusterObjectRef.Namespace
       ClusterObjectRef.Name] in E.
  apply string_split_first in E; [|assumption|assumption].
  destruct E as [-> E].
  apply string_split_first in E; [|assumption|assumption].
  now destruct E as [-> ->].
Qed.

Lemma ClusterObjectRef_String_is_a_key_witness :
  ClusterObjectRef.mk "web" "prod" "east" = ClusterObjectRef.mk "web" "prod" "east".
Proof.
  apply (proj1 ClusterObjectRef_String_is_a_key); reflexivity.
Defined.

Lemma TypedObjectRef_String_flat (r : TypedObjectRef.t) :
  TypedObjectRef.String r
  = (TypedObjectRef.Group r
     ++ String "/"
          (TypedObjectRef.Version r
           ++ String ","
                (" Kind="
                 ++ (TypedObjectRef.Kind r
                     ++ String ":"
                          (" " ++ (TypedObjectRef.Namespace r
                                   ++ String "/" (TypedObjectRef.Name r)))))))%string.
Proof.
  unfold TypedObjectRef.String, GroupVersionKind.String, NamespacedName.String,
    TypedObjectRef.GroupVersionKind, TypedObjectRef.ObjectKey, Separator.
  cbn [GroupVersionKind.Group GroupVersionKind.Version GroupVersionKind.Kind
       NamespacedName.Namespace NamespacedName.Name].
  now rewrite !string_append_assoc.
Qed.

(** X18: on references whose [Group] and [Namespace] hold no "/", whose
    [Version] holds no "," and whose [Kind] holds no ":", the string form of
    a [TypedObjectRef] is a key: two references with the same string are the
    same reference. *)
Theorem TypedObjectRef_String_is_a_key (r1 r2 : TypedObjectRef.t) :
  string_has "/" (TypedObjectRef.Group r1) = false ->
  string_has "," (TypedObjectRef.Version r1) = false ->
  string_has ":" (TypedObjectRef.Kind r1) = false ->
  string_has "/" (TypedObjectRef.Namespace r1) = false ->
  string_has "/" (TypedObjectRef.Group r2) = false ->
  string_has "," (TypedObjectRef.Version r2) = false ->
  string_has ":" (TypedObjectRef.Kind r2) = false ->
  string_has "/" (TypedObjectRef.Namespace r2) = false ->
  TypedObjectRef.String r1 = TypedObjectRef.String r2 -> r1 = r2.
Proof.
  destruct r1 as [g1 v1 k1 n1 ns1], r2 as [g2 v2 k2 n2 ns2].
  cbn [TypedObjectRef.Group TypedObjectRef.Version TypedObjectRef.Kind
       TypedObjectRef.Namespace].
  intros Hg1 Hv1 Hk1 Hn1 Hg2 Hv2 Hk2 Hn2 E.
  rewrite !TypedObjectRef_String_flat in E.
  cbn [TypedObjectRef.Group TypedObjectRef.Version TypedObjectRef.Kind
       TypedObjectRef.Namespace TypedObjectRef.Name] in E.
  apply string_split_first in E; [|assumption|assumption].
  destruct E as [-> E].
  apply string_split_first in E; [|assumption|assumption].
  destruct E as [-> E]. apply string_append_inj_l in E.
  apply string_split_first in E; [|assumption|assumption].
  destruct E as [-> E]. apply string_append_inj_l in E.
  apply string_split_first in E; [|assumption|assumption].
  now destruct E as [-> ->].
Qed.

Lemma TypedObjectRef_String_is_a_key_witness :
  TypedObjectRef.mk "apps" "v1" "Deployment" "web" "prod"
  = TypedObjectRef.mk "apps" "v1" "Deployment" "web" "prod".
Proof.
  apply TypedObjectRef_String_is_a_key; reflexivity.
Defined.

(** X19: a [TypedObjectRef] whose key is not set is exactly one whose
    [ObjectKey] is the zero key, and exactly one whose [namespace/name]
    coordinate prints as the bare separator "/". *)
Theorem ObjectKeyNotSet_is_zero_key (r : TypedObjectRef.t) :
  (TypedObjectRef.ObjectKeyNotSet r = true <->
   TypedObjectRef.ObjectKey r = NamespacedName.mk "" "") /\
  (TypedObjectRef.ObjectKeyNotSet r = true <->
   NamespacedName.String (TypedObjectRef.ObjectKey r) = "/").
Proof.
  unfold TypedObjectRef.ObjectKeyNotSet, NamespacedName.String,
    TypedObjectRef.ObjectKey, Separator.
  cbn [NamespacedName.Namespace NamespacedName.Name].
  rewrite andb_true_iff, !string_eqb_true. split.
  - split.
    + now intros [-> ->].
    + intros [= -> ->]. now split.
  - split.
    + now intros [-> ->].
    + intros E. destruct (TypedObjectRef.Namespace r) as [|a ns].
      * change (String "/" (TypedObjectRef.Name r) = String "/" "") in E.
        injection E as E. now split.
      * change (String a (ns ++ String "/" (TypedObjectRef.Name r))%string
                = String "/" "") in E.
        injection E as _ E. destruct ns; discriminate E.
Qed.

(** ** [ConditionedStatus.Equal], condition by condition *)

Lemma unique_types_GetCondition_range (cs : list Condition.t) (c : Condition.t) :
  unique_types cs -> In c cs ->
  GetCondition_range cs (Condition.Type_ c) = Some c.
Proof.
  intros Hu Hc. apply in_split in Hc. destruct Hc as (pre & post & ->).
  apply GetCondition_range_first. intros d Hd.
  eapply unique_types_split; eauto.
Qed.

Lemma unique_types_NoDup_timeless (l : list Condition.t) :
  unique_types l -> NoDup (map timeless l).
Proof.
  unfold unique_types. induction l as [|x l IH]; cbn [map]; intros H.
  - apply NoDup_nil_2.
  - apply NoDup_cons in H. destruct H as [Hx Hl].
    apply NoDup_cons. split; [|now apply IH].
    intros Hin. apply Hx. apply list_elem_of_In in Hin.
    apply in_map_iff in Hin. destruct Hin as (y & Hy & Hyl).
    apply list_elem_of_In, in_map_iff. exists y. split; [|assumption].
    now apply (f_equal Condition.Type_) in Hy.
Qed.

Section EqualByCondition.
Variable sort_impl :
  (Condition.t -> Condition.t -> bool) -> list Condition.t -> list Condition.t.

(** [sort.Slice] returns the elements it was given, with no element less
    than the one before it. *)
Hypothesis sort_impl_Permutation :
  forall l, Permutation (sort_impl less_Type l) l.
Hypothesis sort_impl_Sorted :
  forall l, Sorted le_Type (sort_impl less_Type l).

(** X20: for a status [a] with at most one condition of each type,
    [a.Equal(b)] is true exactly when [b] holds as many conditions as [a]
    and, for every condition of [a], holds its type with a condition that
    is [Equal] to it (the one [GetCondition] reads). *)
Theorem Equal_iff_conditions_agree (h : store) (p q : loc)
  (a b : list Condition.t) :
  h !! p = Some a -> h !! q = Some b -> unique_types a ->
  (Equal_result sort_impl (Some p) (Some q) h = Some true <->
   length a = length b /\
   (forall c, In c a ->
      has_type (Condition.Type_ c) b = true /\
      Condition.Equal (GetCondition (mk b) (Condition.Type_ c)) c = true)).
Proof.
  intros Hp Hq Hu. unfold Equal_result.
  destruct (Equal_run sort_impl sort_impl_Permutation h p q a b Hp Hq)
    as (h' & -> & _).
  cbn [option_map fst].
  assert (Hiff : (length b =? length a)%nat
                 && pairwise_Equal (sort_impl less_Type a)
                      (sort_impl less_Type b) = true
                 <-> same_multiset a b)
    by (apply Equal_result_iff; auto).
  split.
  - intros [= Hr]. apply Hiff in Hr.
    split; [now apply same_multiset_length|].
    intros c Hc.
    assert (Hub : unique_types b) by eauto using same_multiset_unique.
    assert (Hin : In (timeless c) (map timeless b))
      by (apply (Permutation_in _ Hr); now apply in_map).
    apply in_map_iff in Hin. destruct Hin as (d & Hd & Hdb).
    apply Condition_Equal_timeless in Hd.
    pose proof (Condition_Equal_Type _ _ Hd) as HT. split.
    + apply has_type_true. now exists d.
    + unfold GetCondition. cbn [Conditions]. rewrite <- HT.
      now rewrite (unique_types_GetCondition_range b d Hub Hdb).
  - intros [Hlen Hall]. f_equal. apply Hiff. unfold same_multiset.
    apply submseteq_length_Permutation.
    + apply NoDup_submseteq; [now apply unique_types_NoDup_timeless|].
      intros x Hx. apply list_elem_of_In in Hx. apply list_elem_of_In.
      apply in_map_iff in Hx. destruct Hx as (c & <- & Hc).
      destruct (Hall c Hc) as [Hh HE].
      unfold GetCondition in HE. cbn [Conditions] in HE.
      destruct (GetCondition_range b (Condition.Type_ c)) as [d|] eqn:Hd.
      * destruct (GetCondition_range_Some _ _ _ Hd) as [Hdb _].
        apply Condition_Equal_timeless in HE. rewrite <- HE.
        now apply in_map.
      * apply GetCondition_range_None in Hd. congruence.
    + rewrite !length_map. lia.
Qed.
End EqualByCondition.

Lemma Equal_iff_conditions_agree_witness :
  length [sample_available; sample_synced]
  = length [sample_synced; sample_available_later] /\
  (forall c, In c [sample_available; sample_synced] ->
     has_type (Condition.Type_ c) [sample_synced; sample_available_later] = true /\
     Condition.Equal
       (GetCondition (mk [sample_synced; sample_available_later])
          (Condition.Type_ c)) c = true).
Proof.
  apply (Equal_iff_conditions_agree (@insertionSort_func Condition.t)
           (insertionSort_func_Permutation less_Type)
           insertionSort_func_Sorted
           sample_store 1%nat 2%nat
           [sample_available; sample_synced]
           [sample_synced; sample_available_later] eq_refl eq_refl).
  - unfold unique_types. cbn [map]. apply NoDup_cons. split.
    + intros H. apply list_elem_of_In in H. destruct H as [H|[]]. discriminate.
    + apply NoDup_singleton.
  - vm_compute. reflexivity.
Defined.
